(** * accident_prone_area.py: the data pipeline of the dashboard

    A shallow embedding of the data path of [accident_prone_area.py]:
    [load_data] and the start of the script, [preprocess_and_analyze], the
    sidebar filter, the KPI block and the top-10 aggregation, followed by the
    properties proved about them.

    Numbers are modelled as pandas holds them: the accident count column is
    int64 (a [Z] with its wrap-around), the rate and the predicted columns are
    IEEE binary64. A [str] is a sequence of Unicode code points. *)

From stdpp Require Import gmap.
From Stdlib Require Import ZArith Lia List Bool String Permutation Sorted.
From Stdlib Require SpecFloat.
Import ListNotations.

(** ** Binary64 arithmetic

    A finite binary64 number is a whole number of units of [2^-1074] (the
    smallest subnormal), so finite values are represented by that integer:
    equality and order of values are equality and order on [Z]. Every
    operation is the exact operation followed by rounding to nearest, ties to
    even, on the grid of the binade of the result (53 significant bits), and
    overflows to an infinity. The sign of zero is not represented: no
    operation of the program observes it. *)
Module F64.
Local Open Scope Z_scope.

Inductive f64 : Type :=
| Fin (v : Z)      (* the finite value v * 2^-1074 *)
| PInf
| NInf
| NaN.

(** 1.0, in units. *)
Definition one : Z := 2 ^ 1074.

(** First magnitude that is no longer finite: 2^1024, in units. *)
Definition huge : Z := 2 ^ 2098.

(** Exponent of the rounding grid of a non-negative real with floor [q]:
    values below 2^53 units are on the unit grid (this covers the
    subnormals), above it the grid keeps 53 significant bits. *)
Definition grid_exp (q : Z) : Z := Z.max 0 (Z.log2 q - 52).

(** The integer nearest to [a / d], a tie going to the even one, [0 < d]. *)
Definition nearest_even (a d : Z) : Z :=
  let q := a / d in
  let r := a mod d in
  match 2 * r ?= d with
  | Lt => q
  | Gt => q + 1
  | Eq => if Z.odd q then q + 1 else q
  end.

(** Round to nearest, ties to even, the rational [a / b] (in units),
    [0 <= a], [0 < b]. *)
Definition rne_pos (a b : Z) : Z :=
  let j := grid_exp (a / b) in
  nearest_even a (b * 2 ^ j) * 2 ^ j.

Definition rne (a b : Z) : Z :=
  if a <? 0 then - rne_pos (- a) b else rne_pos a b.

Definition mk (v : Z) : f64 :=
  if huge <=? v then PInf else if v <=? - huge then NInf else Fin v.

(** The rounded value of the rational [a / b] units, [0 < b]. *)
Definition round (a b : Z) : f64 := mk (rne a b).

(** int64 -> float64 conversion. *)
Definition of_int (n : Z) : f64 := round (n * one) 1.

(** A decimal literal [num / den] of the source, e.g. [0.30] is [3 / 10]. *)
Definition of_decimal (num den : Z) : f64 := round (num * one) den.

Definition fneg (x : f64) : f64 :=
  match x with
  | Fin v => Fin (- v)
  | PInf => NInf
  | NInf => PInf
  | NaN => NaN
  end.

Definition fadd (x y : f64) : f64 :=
  match x, y with
  | Fin a, Fin b => round (a + b) 1
  | NaN, _ | _, NaN => NaN
  | PInf, NInf | NInf, PInf => NaN
  | PInf, _ | _, PInf => PInf
  | NInf, _ | _, NInf => NInf
  end.

Definition fsub (x y : f64) : f64 := fadd x (fneg y).

Definition sign_inf (s : Z) : f64 :=
  if s =? 0 then NaN else if 0 <? s then PInf else NInf.

Definition sgn (x : f64) : Z :=
  match x with
  | Fin v => Z.sgn v
  | PInf => 1
  | NInf => -1
  | NaN => 0
  end.

Definition fmul (x y : f64) : f64 :=
  match x, y with
  | Fin a, Fin b => round (a * b) one
  | NaN, _ | _, NaN => NaN
  | _, _ => sign_inf (sgn x * sgn y)
  end.

(** IEEE division; the divisor is not zero (see [checked_div]). *)
Definition fdiv (x y : f64) : f64 :=
  match x, y with
  | Fin a, Fin b => round (Z.sgn b * a * one) (Z.abs b)
  | NaN, _ | _, NaN => NaN
  | Fin _, _ => Fin 0
  | _, Fin b => sign_inf (sgn x * (if b <? 0 then -1 else 1))
  | _, _ => NaN
  end.

Definition is_zero (x : f64) : bool :=
  match x with Fin 0 => true | _ => false end.

(** The non-negative values a float can hold: 53 significant bits. *)
Definition representable (v : Z) : Prop :=
  exists m k, 0 <= m < 2 ^ 53 /\ 0 <= k /\ v = m * 2 ^ k.

(** The same values in the Standard Library's reference implementation of
    IEEE arithmetic, to compare the operations with. *)
Definition of_spec (x : SpecFloat.spec_float) : f64 :=
  match x with
  | SpecFloat.S754_zero _ => Fin 0
  | SpecFloat.S754_infinity false => PInf
  | SpecFloat.S754_infinity true => NInf
  | SpecFloat.S754_nan => NaN
  | SpecFloat.S754_finite s m e =>
      Fin ((if s then -1 else 1) * Z.pos m * 2 ^ (e + 1074))
  end.

Definition to_spec (x : f64) : SpecFloat.spec_float :=
  match x with
  | Fin v =>
      if v =? 0 then SpecFloat.S754_zero false
      else SpecFloat.binary_normalize 53 1024 v (-1074) false
  | PInf => SpecFloat.S754_infinity false
  | NInf => SpecFloat.S754_infinity true
  | NaN => SpecFloat.S754_nan
  end.

End F64.

(** ** Python values: str, exceptions *)
Module Py.
Local Open Scope Z_scope.

(** A str: its code points. *)
Definition str : Type := list Z.

(** Decoding of a UTF-8 literal of this file into a str. *)
Fixpoint utf8_decode (bs : list Z) (need : nat) (acc : Z) : str :=
  match bs with
  | [] => []
  | b :: rest =>
      match need with
      | O =>
          if b <? 128 then b :: utf8_decode rest 0 0
          else if b <? 224 then utf8_decode rest 1 (b - 192)
          else if b <? 240 then utf8_decode rest 2 (b - 224)
          else utf8_decode rest 3 (b - 240)
      | S O => (acc * 64 + (b - 128)) :: utf8_decode rest 0 0
      | S k => utf8_decode rest k (acc * 64 + (b - 128))
      end
  end.

Definition u (s : string) : str :=
  utf8_decode (List.map (fun b => Z.of_N (Byte.to_N b)) (list_byte_of_string s)) 0 0.

Definition in_ranges (rs : list (Z * Z)) (c : Z) : bool :=
  List.existsb (fun r => (fst r <=? c) && (c <=? snd r)) rs.

(** The code points [\d] matches in a str pattern: the decimal digits of
    Unicode (category Nd), as the interpreter's character database lists
    them. *)
Definition decimal_ranges : list (Z * Z) :=
  [(48, 57); (1632, 1641); (1776, 1785); (1984, 1993); (2406, 2415);
   (2534, 2543); (2662, 2671); (2790, 2799); (2918, 2927); (3046, 3055);
   (3174, 3183); (3302, 3311); (3430, 3439); (3558, 3567); (3664, 3673);
   (3792, 3801); (3872, 3881); (4160, 4169); (4240, 4249); (6112, 6121);
   (6160, 6169); (6470, 6479); (6608, 6617); (6784, 6793); (6800, 6809);
   (6992, 7001); (7088, 7097); (7232, 7241); (7248, 7257); (42528, 42537);
   (43216, 43225); (43264, 43273); (43472, 43481); (43504, 43513);
   (43600, 43609); (44016, 44025); (65296, 65305); (66720, 66729);
   (68912, 68921); (69734, 69743); (69872, 69881); (69942, 69951);
   (70096, 70105); (70384, 70393); (70736, 70745); (70864, 70873);
   (71248, 71257); (71360, 71369); (71472, 71481); (71904, 71913);
   (72016, 72025); (72784, 72793); (73040, 73049); (73120, 73129);
   (92768, 92777); (92864, 92873); (93008, 93017); (120782, 120831);
   (123200, 123209); (123632, 123641); (125264, 125273); (130032, 130041)].

Definition isdecimal (c : Z) : bool := in_ranges decimal_ranges c.

(** The code points [str.split()] splits on ([str.isspace]). *)
Definition space_ranges : list (Z * Z) :=
  [(9, 13); (28, 32); (133, 133); (160, 160); (5760, 5760); (8192, 8202);
   (8232, 8233); (8239, 8239); (8287, 8287); (12288, 12288)].

Definition isspace (c : Z) : bool := in_ranges space_ranges c.

Definition newline : Z := 10.

Definition str_eqb (a b : str) : bool := bool_decide (a = b).

(** Order of str: lexicographic on code points. *)
Fixpoint str_ltb (a b : str) : bool :=
  match a, b with
  | _, [] => false
  | [], _ :: _ => true
  | x :: a', y :: b' => (x <? y) || ((x =? y) && str_ltb a' b')
  end.

(** [sorted(column.unique())]: the distinct values in ascending order. *)
Fixpoint insert_key (k : str) (ks : list str) : list str :=
  match ks with
  | [] => [k]
  | h :: t =>
      if str_eqb k h then ks
      else if str_ltb k h then k :: ks
      else h :: insert_key k t
  end.

Definition sorted_unique (l : list str) : list str :=
  List.fold_left (fun ks k => insert_key k ks) l [].

(** The distinct values in order of first appearance ([unique()]). *)
Definition unique (l : list str) : list str :=
  List.fold_left (fun ks k => if List.existsb (str_eqb k) ks then ks else ks ++ [k]) l [].

Inductive exn : Type :=
| FileNotFoundError
| UnicodeDecodeError
| ParserError
| AttributeError
| IndexError
| ZeroDivisionError.

Inductive result (A : Type) : Type :=
| Ok (a : A)
| Raise (e : exn).
Arguments Ok {A} a.
Arguments Raise {A} e.

Definition bind {A B : Type} (r : result A) (k : A -> result B) : result B :=
  match r with
  | Ok a => k a
  | Raise e => Raise e
  end.

(** [f] applied to the rows in order; the first exception ends the loop. *)
Fixpoint map_result {A B : Type} (f : A -> result B) (l : list A) : result (list B) :=
  match l with
  | [] => Ok []
  | x :: t =>
      bind (f x) (fun y => bind (map_result f t) (fun ys => Ok (y :: ys)))
  end.

(** A cell of an object column. A field with no text is read as NaN. *)
Inductive pyval : Type :=
| PStr (s : str)
| PInt (n : Z)
| PFloat (x : F64.f64).

(** *** [re.sub(r'\d+$', '', text)] *)

(** [$] (no MULTILINE flag) holds where the text ends, and just before a
    newline that is the last character. *)
Definition at_dollar (rest : str) : bool :=
  match rest with
  | [] => true
  | [c] => c =? newline
  | _ => false
  end.

(** Number of leading characters [\d] accepts. *)
Fixpoint digit_run (s : str) : nat :=
  match s with
  | c :: t => if isdecimal c then S (digit_run t) else O
  | [] => O
  end.

(** [\d+$] tried at the start of [s]: the greedy run first, then the
    shorter ones; the length of the match. *)
Fixpoint match_upto (s : str) (k : nat) : option nat :=
  match k with
  | O => None
  | S k' => if at_dollar (skipn k s) then Some k else match_upto s k'
  end.

Definition match_here (s : str) : option nat := match_upto s (digit_run s).

(** The scan of [re.sub] with the empty replacement: the leftmost match is
    dropped and the search resumes after it. [skip] counts the characters of
    the current match still to drop. *)
Fixpoint sub_scan (s : str) (skip : nat) : str :=
  match s with
  | [] => []
  | c :: t =>
      match skip with
      | S k => sub_scan t k
      | O =>
          match match_here s with
          | Some (S k) => sub_scan t k
          | _ => c :: sub_scan t 0
          end
      end
  end.

Definition re_sub_digits_end (text : str) : str := sub_scan text 0.

(** The last character is a decimal digit. *)
Definition ends_with_digit (s : str) : bool :=
  match rev s with
  | c :: _ => isdecimal c
  | [] => false
  end.

(** The text ends with a decimal digit and one newline after it. *)
Definition ends_with_digit_newline (s : str) : bool :=
  match rev s with
  | n :: c :: _ => (n =? newline) && isdecimal c
  | _ => false
  end.

(** *** [str.split()] *)

(** [tok] holds the characters of the token being read. *)
Fixpoint split_from (s : str) (tok : str) : list str :=
  match s with
  | [] => match tok with [] => [] | _ => [tok] end
  | c :: t =>
      if isspace c
      then match tok with [] => split_from t [] | _ => tok :: split_from t [] end
      else split_from t (tok ++ [c])
  end.

Definition split (s : str) : list str := split_from s [].

(** [l[0]] *)
Definition item0 {A : Type} (l : list A) : result A :=
  match l with
  | x :: _ => Ok x
  | [] => Raise IndexError
  end.

End Py.

(** ** The script *)
Module Dashboard.
Import F64 Py.
Local Open Scope Z_scope.

(** *** int64 columns *)

Definition wrap64 (z : Z) : Z := (z + 2 ^ 63) mod 2 ^ 64 - 2 ^ 63.

(** [Series.sum()] of an int64 column. *)
Definition int64_sum (l : list Z) : Z :=
  List.fold_left (fun acc n => wrap64 (acc + n)) l 0.

(** The sum of the integers themselves, to compare [int64_sum] with. *)
Definition exact_sum (l : list Z) : Z := List.fold_right Z.add 0 l.

(** [Series.sum()] of a float64 column: the values added to 0.0 one after
    the other, which is how the library adds a column of fewer than eight
    values. *)
Definition float64_sum (l : list f64) : f64 :=
  List.fold_left fadd l (Fin 0).

(** A sum of a float64 column by float additions in any order and any
    grouping: the library adds a longer column in blocks. *)
Inductive summed : list f64 -> f64 -> Prop :=
| summed_nil : summed [] (Fin 0)
| summed_one (x : f64) : summed [x] x
| summed_app (l1 l2 : list f64) (s1 s2 : f64) :
    summed l1 s1 -> summed l2 s2 -> summed (l1 ++ l2) (fadd s1 s2)
| summed_perm (l l' : list f64) (s : f64) :
    Permutation l l' -> summed l s -> summed l' s.

(** The least whole number [n] with [x <= 5/16 * n], for a finite [x]. *)
Definition count_needed (x : f64) : Z :=
  match x with
  | Fin P => (P + (5 * 2 ^ 1070 - 1)) / (5 * 2 ^ 1070)
  | _ => 0
  end.

Definition needed_sum (l : list f64) : Z := exact_sum (List.map count_needed l).

Definition finite_nonneg (x : f64) : Prop := exists P, x = Fin P /\ 0 <= P.

(** *** 3. Loading *)

(** A row of the file; of its columns the ones the computation reads:
    사고다발지역시도시군구, 사고유형구분, 사고건수. *)
Record raw_row : Type := {
  raw_region : pyval;       (* 사고다발지역시도시군구 *)
  raw_type : str;           (* 사고유형구분 *)
  raw_count : Z             (* 사고건수 *)
}.

Inductive encoding : Type := cp949 | euc_kr | utf_8.

(** [load_data]: [read_csv enc] is [pd.read_csv(file_path, encoding=enc)] on
    the file as it is on disk. The first component lists the calls made. *)
Definition load_data (read_csv : encoding -> result (list raw_row))
  : list encoding * result (list raw_row) :=
  match read_csv cp949 with
  | Ok df => ([cp949], Ok df)
  | Raise _ =>
      match read_csv euc_kr with
      | Ok df => ([cp949; euc_kr], Ok df)
      | Raise _ => ([cp949; euc_kr; utf_8], read_csv utf_8)
      end
  end.

(** How the script leaves its loading block (lines 75-79). *)
Inductive startup : Type :=
| Loaded (raw_df : list raw_row)
| Stopped (message : str)         (* st.error(message); st.stop() *)
| Uncaught (e : exn).             (* the exception ends the run *)

Definition missing_file_message : str :=
  u "데이터 파일을 찾을 수 없습니다. 폴더에 '전국교통사고다발지역표준데이터.csv'가 있는지 확인해주세요.".

Definition start (read_csv : encoding -> result (list raw_row)) : startup :=
  match snd (load_data read_csv) with
  | Ok df => Loaded df
  | Raise FileNotFoundError => Stopped missing_file_message
  | Raise e => Uncaught e
  end.

(** *** [preprocess_and_analyze] *)

Definition clean_region (text : pyval) : pyval :=
  match text with
  | PStr s => PStr (re_sub_digits_end s)
  | _ => text
  end.

(** [lambda x: x.split()[0]] *)
Definition first_token (x : pyval) : result str :=
  match x with
  | PStr s => item0 (split s)
  | _ => Raise AttributeError
  end.

Record strategy_info : Type := {
  strategy : str;
  rate : f64
}.

Definition strategy_map : gmap str strategy_info :=
  <[ u "스쿨존어린이" := {| strategy := u "스쿨존 과속단속/시인성 강화"; rate := of_decimal 30 100 |} ]> (
  <[ u "보행어린이" := {| strategy := u "보행로 펜스 및 안전교육"; rate := of_decimal 25 100 |} ]> (
  <[ u "보행노인" := {| strategy := u "노인보호구역 및 횡단보도 개선"; rate := of_decimal 20 100 |} ]> (
  <[ u "자전거" := {| strategy := u "자전거 전용도로 및 교차로 개선"; rate := of_decimal 25 100 |} ]> ∅))).

Definition default_strategy : strategy_info :=
  {| strategy := u "일반 안전 점검"; rate := of_decimal 10 100 |}.

(** [strategy_map.get(row['사고유형구분'], default)] *)
Definition apply_strategy (accident_type : str) : strategy_info :=
  default default_strategy (strategy_map !! accident_type).

(** The lookup as the specification tabulates it, to compare with
    [apply_strategy]: four categories matched as exact strings, anything
    else on the default line. *)
Definition strategy_table (category : str) : strategy_info :=
  if str_eqb category (u "스쿨존어린이")
  then {| strategy := u "스쿨존 과속단속/시인성 강화"; rate := of_decimal 30 100 |}
  else if str_eqb category (u "보행어린이")
  then {| strategy := u "보행로 펜스 및 안전교육"; rate := of_decimal 25 100 |}
  else if str_eqb category (u "보행노인")
  then {| strategy := u "노인보호구역 및 횡단보도 개선"; rate := of_decimal 20 100 |}
  else if str_eqb category (u "자전거")
  then {| strategy := u "자전거 전용도로 및 교차로 개선"; rate := of_decimal 25 100 |}
  else {| strategy := u "일반 안전 점검"; rate := of_decimal 10 100 |}.

(** A finite rate between 0 and 5/16. *)
Definition small_rate (x : f64) : bool :=
  match x with
  | Fin R => (0 <=? R) && (16 * R <=? 5 * one)
  | _ => false
  end.

(** A row of the frame [preprocess_and_analyze] returns. [region_clean] is
    a str there: [x.split()] raised on any other value. *)
Record row : Type := {
  region : pyval;               (* 사고다발지역시도시군구 *)
  accident_type : str;          (* 사고유형구분 *)
  accident_count : Z;           (* 사고건수 *)
  region_clean : str;
  sido : str;                   (* 시도 *)
  proposed_strategy : str;
  reduction_rate : f64;
  predicted_reduction : f64;
  predicted_remaining : f64
}.

(** The columns [region_clean] and 시도 of a row (lines 90 and 91). *)
Definition region_columns (r : raw_row) : result (str * str) :=
  let cleaned := clean_region (raw_region r) in
  bind (first_token cleaned) (fun tok =>
  match cleaned with
  | PStr s => Ok (s, tok)
  | _ => Raise AttributeError   (* [first_token] has raised it already *)
  end).

(** The columns of the strategy and of the prediction (lines 101-107). *)
Definition metric_columns (r : raw_row) (rc : str * str) : row :=
  let st_info := apply_strategy (raw_type r) in
  let reduction := fmul (of_int (raw_count r)) (rate st_info) in
  {| region := raw_region r;
     accident_type := raw_type r;
     accident_count := raw_count r;
     region_clean := fst rc;
     sido := snd rc;
     proposed_strategy := strategy st_info;
     reduction_rate := rate st_info;
     predicted_reduction := reduction;
     predicted_remaining := fsub (of_int (raw_count r)) reduction |}.

(** The column steps run one after the other over the whole frame: an
    exception of the region columns leaves before any rate is looked up.
    The frame read from the file has rows; what [apply] hands back on a
    frame without rows is not modelled. *)
Definition preprocess_and_analyze (df : list raw_row) : result (list row) :=
  bind (map_result region_columns df) (fun rcs =>
  Ok (List.map (fun p => metric_columns (fst p) (snd p)) (List.combine df rcs))).

(** What [preprocess_and_analyze] writes in the columns it adds. *)
Definition derived (r : row) : Prop :=
  proposed_strategy r = strategy (apply_strategy (accident_type r)) /\
  reduction_rate r = rate (apply_strategy (accident_type r)) /\
  predicted_reduction r = fmul (of_int (accident_count r)) (reduction_rate r) /\
  predicted_remaining r = fsub (of_int (accident_count r)) (predicted_reduction r).

(** *** 4. Sidebar filter *)

Definition all_sido : str := u "전체".

Definition filter_sido (df : list row) (selected_sido : str) : list row :=
  if str_eqb selected_sido all_sido then df
  else List.filter (fun r => str_eqb (sido r) selected_sido) df.

Definition type_list (filtered_df : list row) : list str :=
  sorted_unique (List.map accident_type filtered_df).

(** [if selected_types: filtered_df = filtered_df[...isin(selected_types)]] *)
Definition filter_types (filtered_df : list row) (selected_types : list str) : list row :=
  match selected_types with
  | [] => filtered_df
  | _ :: _ =>
      List.filter (fun r => List.existsb (str_eqb (accident_type r)) selected_types)
        filtered_df
  end.

Definition filtered (df : list row) (selected_sido : str) (selected_types : list str)
  : list row :=
  filter_types (filter_sido df selected_sido) selected_types.

(** *** 5. KPI *)

Definition total_accidents (filtered_df : list row) : Z :=
  int64_sum (List.map accident_count filtered_df).

Definition total_reduction (filtered_df : list row) : f64 :=
  float64_sum (List.map predicted_reduction filtered_df).

(** A number of the script: an int or a float. *)
Inductive num : Type :=
| NInt (n : Z)
| NFloat (x : f64).

(** Division that reports a zero divisor. *)
Definition checked_div (x y : f64) : result f64 :=
  if is_zero y then Raise ZeroDivisionError else Ok (fdiv x y).

(** [(total_reduction / total_accidents * 100) if total_accidents > 0 else 0] *)
Definition reduction_pct_of (reduction : f64) (accidents : Z) : result num :=
  if 0 <? accidents
  then bind (checked_div reduction (of_int accidents)) (fun q =>
       Ok (NFloat (fmul q (of_int 100))))
  else Ok (NInt 0).

Definition reduction_pct (filtered_df : list row) : result num :=
  reduction_pct_of (total_reduction filtered_df) (total_accidents filtered_df).

(** The percentage is the int 0 or a finite float between 0 and
    [num / den]. *)
Definition within_percent (pct : result num) (num den : Z) : Prop :=
  pct = Ok (NInt 0) \/
  exists p, pct = Ok (NFloat (Fin p)) /\ 0 <= p /\ den * p <= num * one.

(** *** Top 10 *)

(** A row of [groupby('region_clean')[[...]].sum().reset_index()]. *)
Record region_sum : Type := {
  rs_region : str;
  rs_count : Z;
  rs_reduction : f64;
  rs_remaining : f64
}.

Definition rows_of (df : list row) (key : str) : list row :=
  List.filter (fun r => str_eqb (region_clean r) key) df.

Definition sum_group (group_sum : list f64 -> f64) (df : list row) (key : str)
  : region_sum :=
  let rows := rows_of df key in
  {| rs_region := key;
     rs_count := int64_sum (List.map accident_count rows);
     rs_reduction := group_sum (List.map predicted_reduction rows);
     rs_remaining := group_sum (List.map predicted_remaining rows) |}.

(** The groups come out in ascending order of their key. [group_sum] is
    the kernel that adds up a float64 column of a group. *)
Definition groupby_region (group_sum : list f64 -> f64) (df : list row)
  : list region_sum :=
  List.map (sum_group group_sum df) (sorted_unique (List.map region_clean df)).

(** [frame.tail(n)] *)
Definition tail {A : Type} (n : nat) (l : list A) : list A :=
  skipn (List.length l - n) l.

(** [sort_values] is [frame.sort_values('사고건수', ascending=True)]; the
    script leaves the algorithm to the library default. *)
Definition top_regions (sort_values : list region_sum -> list region_sum)
  (group_sum : list f64 -> f64) (filtered_df : list row) : list region_sum :=
  tail 10 (sort_values (groupby_region group_sum filtered_df)).

(** A stable sort by count, by insertion: equal counts keep the order they
    had. *)
Fixpoint insert_by_count (x : region_sum) (l : list region_sum) : list region_sum :=
  match l with
  | [] => [x]
  | h :: t =>
      if rs_count x <=? rs_count h then x :: l else h :: insert_by_count x t
  end.

Definition stable_sort (l : list region_sum) : list region_sum :=
  List.fold_right insert_by_count [] l.

(** The top 10 as the specification words it, to compare with
    [top_regions]: the regions taken in the order of their first row, sorted
    ascending by a stable sort, the last ten kept. *)
Definition top_regions_row_order (group_sum : list f64 -> f64) (filtered_df : list row)
  : list region_sum :=
  tail 10 (stable_sort
    (List.map (sum_group group_sum filtered_df)
       (unique (List.map region_clean filtered_df)))).

(** A sort that is not stable: equal counts come out in reverse. *)
Definition reverse_tie_sort (l : list region_sum) : list region_sum :=
  stable_sort (rev l).

Definition le_count (a b : region_sum) : Prop := rs_count a <= rs_count b.

Definition lt_count (a b : region_sum) : Prop := rs_count a < rs_count b.

(** *** Sample frames *)

(** The two records of the end-to-end scenario. *)
Definition scenario_raw : list raw_row :=
  [ {| raw_region := PStr (u "A시 1"); raw_type := u "스쿨존어린이"; raw_count := 10 |};
    {| raw_region := PStr (u "A시 2"); raw_type := u "자전거"; raw_count := 4 |} ].

Definition scenario_rows : list row :=
  List.map (fun r => metric_columns r (u "A시 ", u "A시")) scenario_raw.

(** Two school-zone records, 2 and 7 accidents. *)
Definition school_raw : list raw_row :=
  [ {| raw_region := PStr (u "A시 1"); raw_type := u "스쿨존어린이"; raw_count := 2 |};
    {| raw_region := PStr (u "A시 2"); raw_type := u "스쿨존어린이"; raw_count := 7 |} ].

Definition school_rows : list row :=
  List.map (fun r => metric_columns r (u "A시 ", u "A시")) school_raw.

(** A record with a count above 2^52. *)
Definition large_raw : raw_row :=
  {| raw_region := PStr (u "A시 1"); raw_type := u "스쿨존어린이";
     raw_count := 6830977400589305 |}.

(** Two regions with the same count, the later name first. *)
Definition tie_raw : list raw_row :=
  [ {| raw_region := PStr (u "B시 1"); raw_type := u "자전거"; raw_count := 5 |};
    {| raw_region := PStr (u "A시 1"); raw_type := u "자전거"; raw_count := 5 |} ].

Definition tie_rows : list row :=
  [ metric_columns {| raw_region := PStr (u "B시 1"); raw_type := u "자전거"; raw_count := 5 |}
      (u "B시 ", u "B시");
    metric_columns {| raw_region := PStr (u "A시 1"); raw_type := u "자전거"; raw_count := 5 |}
      (u "A시 ", u "A시") ].

(** Twelve regions, twelve different counts. *)
Definition twelve_regions : list (str * Z) :=
  [ (u "A구", 5); (u "B구", 3); (u "C구", 9); (u "D구", 1); (u "E구", 12); (u "F구", 7);
    (u "G구", 2); (u "H구", 11); (u "I구", 4); (u "J구", 10); (u "K구", 8); (u "L구", 6) ].

Definition twelve_raw : list raw_row :=
  List.map (fun p => {| raw_region := PStr (fst p); raw_type := u "보행노인";
                        raw_count := snd p |}) twelve_regions.

Definition twelve_rows : list row :=
  List.map (fun r => metric_columns r
              (match raw_region r with PStr s => s | _ => [] end,
               match raw_region r with PStr s => s | _ => [] end)) twelve_raw.

End Dashboard.

(** ** Fonts, options of the sidebar, charts *)
Module Views.
Import F64 Py Dashboard.
Local Open Scope Z_scope.

(** *** 2. Fonts *)

(** What [init_korean_font] leaves behind: the two settings given to
    [plt.rc], and the family it returns for Plotly. *)
Record fonts : Type := {
  rc_family : str;            (* plt.rc('font', family=...) *)
  rc_unicode_minus : bool;    (* plt.rc('axes', unicode_minus=...) *)
  font_family : str
}.

(** [system_name] is [platform.system()]; [nanum_name] is what lines 42-43
    come to: the name the font file reports, or the exception raised on the
    way, which the bare [except] takes whatever it is. *)
Definition init_korean_font (system_name : str) (nanum_name : result str) : fonts :=
  let families :=
    if str_eqb system_name (u "Windows") then (u "Malgun Gothic", u "Malgun Gothic")
    else if str_eqb system_name (u "Darwin") then (u "AppleGothic", u "AppleGothic")
    else match nanum_name with
         | Ok name => (name, u "NanumGothic")
         | Raise _ => (u "DejaVu Sans", u "sans-serif")
         end in
  {| rc_family := fst families;
     rc_unicode_minus := false;
     font_family := snd families |}.

(** The family [update_layout_font] gives to a figure. *)
Definition update_layout_font (plotly_font : str) : str :=
  plotly_font ++ u ", sans-serif".

(** *** 4. Options of the sidebar *)

(** [sorted(df['시도'].unique())] *)
Definition sido_list (df : list row) : list str :=
  sorted_unique (List.map sido df).

(** [["전체"] + sido_list] *)
Definition sido_options (df : list row) : list str :=
  all_sido :: sido_list df.

Definition str_lt (a b : str) : Prop := str_ltb a b = true.

(** The test a row passes to stay in [filtered df s ts]. *)
Definition kept (s : str) (ts : list str) (r : row) : bool :=
  (str_eqb s all_sido || str_eqb (sido r) s) &&
  match ts with
  | [] => true
  | _ :: _ => List.existsb (str_eqb (accident_type r)) ts
  end.

(** *** 5. Charts by accident type *)

Definition rows_of_type (df : list row) (key : str) : list row :=
  List.filter (fun r => str_eqb (accident_type r) key) df.

(** A row of [groupby('사고유형구분')['사고건수'].sum().reset_index()]. *)
Record type_count : Type := {
  tc_type : str;
  tc_count : Z
}.

Definition type_counts (filtered_df : list row) : list type_count :=
  List.map (fun key => {| tc_type := key;
                          tc_count := int64_sum (List.map accident_count
                                                   (rows_of_type filtered_df key)) |})
    (sorted_unique (List.map accident_type filtered_df)).

(** A row of [type_red]. *)
Record type_sum : Type := {
  ts_type : str;
  ts_reduction : f64;
  ts_remaining : f64
}.

Definition type_red (group_sum : list f64 -> f64) (filtered_df : list row)
  : list type_sum :=
  List.map (fun key => {| ts_type := key;
                          ts_reduction := group_sum (List.map predicted_reduction
                                                       (rows_of_type filtered_df key));
                          ts_remaining := group_sum (List.map predicted_remaining
                                                       (rows_of_type filtered_df key)) |})
    (sorted_unique (List.map accident_type filtered_df)).

(** *** Region labels *)

(** A region label is usable when it is a str that still holds a token once
    cleaned. *)
Definition region_ok (r : raw_row) : bool :=
  match raw_region r with
  | PStr s => negb (List.forallb isspace (re_sub_digits_end s))
  | _ => false
  end.

(** The exception a label that is not usable ends the run with. *)
Definition region_error (r : raw_row) : exn :=
  match raw_region r with
  | PStr _ => IndexError
  | _ => AttributeError
  end.

(** *** Sample rows *)

(** The first record of the end-to-end scenario, as a row of the frame. *)
Definition school_row : row :=
  metric_columns {| raw_region := PStr (u "A시 1"); raw_type := u "스쿨존어린이";
                    raw_count := 10 |} (u "A시 ", u "A시").

(** A bicycle record with 5 accidents. *)
Definition bicycle_row : row :=
  metric_columns {| raw_region := PStr (u "A시 1"); raw_type := u "자전거";
                    raw_count := 5 |} (u "A시 ", u "A시").

End Views.

(** * Properties *)

(** ** Rounding *)
Module F64Facts.
Import F64.
Local Open Scope Z_scope.

Lemma grid_exp_nonneg q : 0 <= grid_exp q.
Proof. unfold grid_exp. lia. Qed.

Lemma grid_pos q : 0 < 2 ^ grid_exp q.
Proof. apply Z.pow_pos_nonneg; [lia | apply grid_exp_nonneg]. Qed.

Lemma grid_exp_mono q q' : 0 <= q <= q' -> grid_exp q <= grid_exp q'.
Proof.
  intros H. unfold grid_exp.
  assert (Z.log2 q <= Z.log2 q') by (apply Z.log2_le_mono; lia). lia.
Qed.

Lemma grid_exp_upper q : 0 <= q -> q < 2 ^ 53 * 2 ^ grid_exp q.
Proof.
  intros Hq. rewrite <- Z.pow_add_r by (try apply grid_exp_nonneg; lia).
  destruct (Z.eq_dec q 0) as [->|Hne].
  - apply Z.pow_pos_nonneg; [lia|]. pose proof (grid_exp_nonneg 0). lia.
  - assert (Hs := Z.log2_spec q ltac:(lia)).
    eapply Z.lt_le_trans; [apply Hs|].
    apply Z.pow_le_mono_r; [lia|]. unfold grid_exp. lia.
Qed.

Lemma grid_exp_lower q : 0 < grid_exp q -> 2 ^ 52 * 2 ^ grid_exp q <= q.
Proof.
  intros Hj. rewrite <- Z.pow_add_r by lia.
  unfold grid_exp in *.
  assert (0 < q).
  { destruct (Z_lt_le_dec 0 q); [lia|].
    rewrite (Z.log2_nonpos q) in Hj by lia. lia. }
  assert (Hs := Z.log2_spec q ltac:(lia)).
  replace (52 + Z.max 0 (Z.log2 q - 52)) with (Z.log2 q) by lia. lia.
Qed.

Lemma div_frac_le a b a' b' :
  0 < b -> 0 < b' -> a * b' <= a' * b -> a / b <= a' / b'.
Proof.
  intros Hb Hb' H.
  apply Z.div_le_lower_bound; [lia|].
  assert (H1 := Z.mul_div_le a b Hb). nia.
Qed.

Lemma nearest_even_cases a d :
  0 < d ->
  exists q r, a = d * q + r /\ 0 <= r < d /\ q = a / d /\
    (nearest_even a d = q /\ (2 * r < d \/ 2 * r = d /\ Z.odd q = false)
     \/ nearest_even a d = q + 1 /\ (d < 2 * r \/ 2 * r = d /\ Z.odd q = true)).
Proof.
  intros Hd. exists (a / d), (a mod d).
  split; [apply Z.div_mod; lia|]. split; [apply Z.mod_pos_bound; lia|].
  split; [reflexivity|].
  unfold nearest_even.
  destruct (Z.compare_spec (2 * (a mod d)) d) as [E|E|E].
  - destruct (Z.odd (a / d)) eqn:Ho; [right|left]; split; auto.
  - left; split; auto.
  - right; split; auto.
Qed.

Lemma nearest_even_mono a d a' d' :
  0 < d -> 0 < d' -> a * d' <= a' * d ->
  nearest_even a d <= nearest_even a' d'.
Proof.
  intros Hd Hd' H.
  assert (Hq : a / d <= a' / d') by (apply div_frac_le; lia).
  destruct (nearest_even_cases a d Hd) as (q & r & E & Br & Eq & C).
  destruct (nearest_even_cases a' d' Hd') as (q' & r' & E' & Br' & Eq' & C').
  rewrite <- Eq, <- Eq' in Hq.
  destruct (Z.eq_dec q q') as [Eqq|Nq].
  - subst q'. assert (Hr : r * d' <= r' * d) by nia.
    destruct C as [[-> C]|[-> C]]; destruct C' as [[-> C']|[-> C']]; try lia.
    destruct C as [C|[C Ho]]; destruct C' as [C'|[C' Ho']]; try nia; congruence.
  - destruct C as [[-> C]|[-> C]]; destruct C' as [[-> C']|[-> C']]; lia.
Qed.

Lemma nearest_even_unique a d m :
  0 < d ->
  (2 * Z.abs (m * d - a) < d \/ 2 * Z.abs (m * d - a) = d /\ Z.odd m = false) ->
  nearest_even a d = m.
Proof.
  intros Hd Hm.
  destruct (nearest_even_cases a d Hd) as (q & r & E & Br & Eq & C).
  assert (m = q \/ m = q + 1) as [->| ->] by nia.
  - destruct C as [[-> C]|[-> C]]; [reflexivity|].
    exfalso. destruct C as [C|[C Ho]]; destruct Hm as [Hm|[Hm Ho']]; try nia; congruence.
  - destruct C as [[-> C]|[-> C]]; [|reflexivity].
    exfalso. rewrite Z.odd_add in Hm. 
    destruct C as [C|[C Ho]]; destruct Hm as [Hm|[Hm Ho']]; try nia.
    rewrite Ho in Ho'. discriminate.
Qed.

Lemma nearest_even_exact m d : 0 < d -> nearest_even (m * d) d = m.
Proof.
  intros Hd. apply nearest_even_unique; [lia|]. left.
  replace (m * d - m * d) with 0 by lia. simpl. lia.
Qed.

Lemma nearest_even_near a d :
  0 < d -> 2 * Z.abs (nearest_even a d * d - a) <= d.
Proof.
  intros Hd.
  destruct (nearest_even_cases a d Hd) as (q & r & E & Br & Eq & C).
  destruct C as [[-> C]|[-> C]]; nia.
Qed.

Lemma nearest_even_floor a d :
  0 < d -> a / d <= nearest_even a d <= a / d + 1.
Proof.
  intros Hd.
  destruct (nearest_even_cases a d Hd) as (q & r & E & Br & Eq & C).
  rewrite <- Eq. destruct C as [[-> C]|[-> C]]; lia.
Qed.

(** rounding never increases past the top of the binade *)
Lemma rne_pos_mono a b a' b' :
  0 <= a -> 0 < b -> 0 < b' -> a * b' <= a' * b ->
  rne_pos a b <= rne_pos a' b'.
Proof.
  intros Ha Hb Hb' H.
  assert (Ha' : 0 <= a') by nia.
  assert (Hq0 : a / b <= a' / b') by (apply div_frac_le; lia).
  assert (Hq0n : 0 <= a / b) by (apply Z.div_pos; lia).
  assert (Hj := grid_exp_mono _ _ (conj Hq0n Hq0)).
  unfold rne_pos.
  pose proof (grid_pos (a / b)) as Hg. pose proof (grid_pos (a' / b')) as Hg'.
  pose proof (grid_exp_nonneg (a / b)) as Hjn.
  set (j := grid_exp (a / b)) in *. set (j' := grid_exp (a' / b')) in *.
  destruct (Z.eq_dec j j') as [Ej|Nj].
  - rewrite <- Ej. apply Z.mul_le_mono_nonneg_r; [lia|].
    apply nearest_even_mono; nia.
  - assert (Hlt : j + 1 <= j') by lia.
    assert (U := grid_exp_upper (a / b) Hq0n). fold j in U.
    assert (L := grid_exp_lower (a' / b') ltac:(fold j'; lia)). fold j' in L.
    set (g := 2 ^ j) in *. set (g' := 2 ^ j') in *.
    assert (Hgg : 2 * g <= g').
    { unfold g, g'. replace j' with (1 + j + (j' - j - 1)) by lia.
      rewrite !Z.pow_add_r by lia.
      assert (0 < 2 ^ (j' - j - 1)) by (apply Z.pow_pos_nonneg; lia). 
      change (2 ^ 1) with 2. nia. }
    assert (F := nearest_even_floor a (b * g) ltac:(nia)).
    assert (F' := nearest_even_floor a' (b' * g') ltac:(nia)).
    rewrite <- Z.div_div in F, F' by lia.
    assert (a / b / g < 2 ^ 53).
    { apply Z.div_lt_upper_bound; lia. }
    assert (2 ^ 52 <= a' / b' / g').
    { apply Z.div_le_lower_bound; lia. }
    nia.
Qed.

(** ** Representable values *)

Lemma grid_exp_unique e x :
  0 <= e -> 2 ^ 52 * 2 ^ e <= x < 2 ^ 53 * 2 ^ e -> grid_exp x = e.
Proof.
  intros He [L U]. rewrite <- Z.pow_add_r in L, U by lia.
  assert (0 < x). { assert (0 < 2 ^ (52 + e)) by (apply Z.pow_pos_nonneg; lia). lia. }
  assert (Z.log2 x = 52 + e).
  { apply Z.log2_unique; [lia|]. replace (Z.succ (52 + e)) with (53 + e) by lia. lia. }
  unfold grid_exp. lia.
Qed.

Lemma grid_exp_small x : x < 2 ^ 53 -> grid_exp x = 0.
Proof.
  intros H. unfold grid_exp.
  destruct (Z_lt_le_dec 0 x) as [Hp|Hn].
  - assert (Z.log2 x < 53) by (apply Z.log2_lt_pow2; lia). lia.
  - rewrite Z.log2_nonpos by lia. lia.
Qed.

Lemma representable_grid v :
  representable v -> exists M, v = M * 2 ^ grid_exp v.
Proof.
  intros (m & k & Hm & Hk & ->).
  destruct (Z_lt_le_dec 0 (grid_exp (m * 2 ^ k))) as [Hj|Hj].
  - assert (L := grid_exp_lower _ Hj).
    set (j := grid_exp (m * 2 ^ k)) in *.
    assert (j <= k).
    { destruct (Z_lt_le_dec k j) as [Hlt|]; [|lia]. exfalso.
      assert (2 ^ (k + 1) <= 2 ^ j) by (apply Z.pow_le_mono_r; lia).
      rewrite Z.pow_add_r in H by lia. change (2 ^ 1) with 2 in H.
      assert (0 < 2 ^ k) by (apply Z.pow_pos_nonneg; lia). nia. }
    exists (m * 2 ^ (k - j)). rewrite <- Z.mul_assoc, <- Z.pow_add_r by lia.
    f_equal. f_equal. lia.
  - pose proof (grid_exp_nonneg (m * 2 ^ k)).
    replace (grid_exp (m * 2 ^ k)) with 0 by lia. exists (m * 2 ^ k). change (2 ^ 0) with 1. lia.
Qed.

Lemma rne_pos_exact v b :
  0 < b -> representable v -> rne_pos (v * b) b = v.
Proof.
  intros Hb Hv. unfold rne_pos.
  rewrite Z.div_mul by lia.
  destruct (representable_grid v Hv) as [M HM].
  pose proof (grid_pos v) as Hg. set (g := 2 ^ grid_exp v) in *.
  rewrite HM at 1. replace (M * g * b) with (M * (b * g)) by lia.
  rewrite nearest_even_exact by nia. lia.
Qed.

Lemma rne_pos_0 b : 0 < b -> rne_pos 0 b = 0.
Proof.
  intros Hb. apply (rne_pos_exact 0 b Hb).
  exists 0, 0. repeat split; lia.
Qed.

Lemma rne_pos_nonneg a b : 0 <= a -> 0 < b -> 0 <= rne_pos a b.
Proof.
  intros Ha Hb. rewrite <- (rne_pos_0 1) by lia.
  apply rne_pos_mono; lia.
Qed.

(** an upper bound that is itself a float is not crossed by rounding *)
Lemma rne_pos_le a b v :
  0 <= a -> 0 < b -> representable v -> a <= v * b -> rne_pos a b <= v.
Proof.
  intros Ha Hb Hv H. rewrite <- (rne_pos_exact v 1) by (auto; lia).
  apply rne_pos_mono; lia.
Qed.

Lemma rne_pos_ge a b v :
  0 <= v -> 0 < b -> representable v -> v * b <= a -> v <= rne_pos a b.
Proof.
  intros Ha Hb Hv H. rewrite <- (rne_pos_exact v 1) at 1 by (auto; lia).
  apply rne_pos_mono; lia.
Qed.

Lemma rne_pos_representable a b :
  0 <= a -> 0 < b -> representable (rne_pos a b).
Proof.
  intros Ha Hb. unfold rne_pos.
  assert (Hq : 0 <= a / b) by (apply Z.div_pos; lia).
  pose proof (grid_exp_upper _ Hq) as U.
  pose proof (grid_pos (a / b)) as Hg. pose proof (grid_exp_nonneg (a / b)) as Hj.
  set (j := grid_exp (a / b)) in *. set (g := 2 ^ j) in *.
  assert (F := nearest_even_floor a (b * g) ltac:(nia)).
  rewrite <- Z.div_div in F by lia.
  assert (a / b / g < 2 ^ 53) by (apply Z.div_lt_upper_bound; lia).
  assert (0 <= a / b / g) by (apply Z.div_pos; lia).
  destruct (Z.eq_dec (nearest_even a (b * g)) (2 ^ 53)) as [E|N].
  - exists (2 ^ 52), (j + 1). repeat split; try lia.
    rewrite E, Z.pow_add_r by lia. unfold g. lia.
  - exists (nearest_even a (b * g)), j. repeat split; lia.
Qed.

(** ** Signed rounding *)

Lemma rne_nonneg_eq a b : 0 <= a -> rne a b = rne_pos a b.
Proof. intros H. unfold rne. destruct (Z.ltb_spec a 0); [lia|reflexivity]. Qed.

Lemma rne_opp a b : 0 < b -> rne (- a) b = - rne a b.
Proof.
  intros Hb. unfold rne.
  destruct (Z.ltb_spec a 0); destruct (Z.ltb_spec (- a) 0); try lia.
  - rewrite Z.opp_involutive. lia.
  - assert (a = 0) by lia. subst a. change (- 0) with 0. rewrite rne_pos_0; lia.
Qed.

Lemma rne_mono a b a' b' :
  0 < b -> 0 < b' -> a * b' <= a' * b -> rne a b <= rne a' b'.
Proof.
  intros Hb Hb' H. unfold rne.
  destruct (Z.ltb_spec a 0); destruct (Z.ltb_spec a' 0).
  - apply Z.opp_le_mono. rewrite !Z.opp_involutive. apply rne_pos_mono; lia.
  - pose proof (rne_pos_nonneg (- a) b). pose proof (rne_pos_nonneg a' b'). lia.
  - nia.
  - apply rne_pos_mono; lia.
Qed.

Lemma mk_fin v : - huge < v < huge -> mk v = Fin v.
Proof.
  intros H. unfold mk.
  destruct (Z.leb_spec huge v); [lia|]. destruct (Z.leb_spec v (- huge)); [lia|]. reflexivity.
Qed.

(** ** Adding back what was subtracted *)

Lemma rne_pos_1 a : rne_pos a 1 = nearest_even a (2 ^ grid_exp a) * 2 ^ grid_exp a.
Proof. unfold rne_pos. rewrite Z.div_1_r, Z.mul_1_l. reflexivity. Qed.

Lemma rne_pos_1_near a :
  2 * Z.abs (rne_pos a 1 - a) <= 2 ^ grid_exp a.
Proof.
  rewrite rne_pos_1. apply nearest_even_near, grid_pos.
Qed.

Lemma rne_pos_1_unique a m e :
  grid_exp a = e -> 2 * Z.abs (m * 2 ^ e - a) <= 2 ^ e -> Z.odd m = false ->
  rne_pos a 1 = m * 2 ^ e.
Proof.
  intros He H Hm. rewrite rne_pos_1, He. f_equal.
  apply nearest_even_unique.
  - rewrite <- He. apply grid_pos.
  - destruct (Z.eq_dec (2 * Z.abs (m * 2 ^ e - a)) (2 ^ e)); [right; auto | left; lia].
Qed.

(** [N] is a float with two spare low bits in its binade ([N = 4 u M],
    the binade being [[2^53 u, 2^54 u)]), and [P] is at most half of it:
    subtracting [P] and adding it back, each with a rounding, gives [N]. *)
Lemma add_back e M N P :
  0 <= e -> N = 4 * 2 ^ e * M ->
  2 ^ 53 * 2 ^ e <= N < 2 ^ 54 * 2 ^ e ->
  0 <= P -> 2 * P <= N ->
  rne_pos (P + rne_pos (N - P) 1) 1 = N.
Proof.
  intros He HN [NL NU] HP HPN.
  assert (Hu : 0 < 2 ^ e) by (apply Z.pow_pos_nonneg; lia).
  assert (E1 : 2 ^ (e + 1) = 2 * 2 ^ e)
    by (rewrite Z.pow_add_r by lia; change (2 ^ 1) with 2; lia).
  remember (2 ^ e) as u eqn:Eu.
  assert (Near := rne_pos_1_near (N - P)).
  assert (HM : M < 2 ^ 52) by nia.
  assert (NU' : N + 4 * u <= 2 ^ 54 * u) by nia.
  remember (rne_pos (N - P) 1) as Q eqn:EQ.
  destruct (Z_lt_le_dec (N - P) (2 ^ 53 * u)) as [Ylo|Yhi].
  - (* N - P in the binade below *)
    assert (EY : grid_exp (N - P) = e) by (apply grid_exp_unique; rewrite <- ?Eu; lia).
    rewrite EY, <- Eu in Near.
    destruct (Z_lt_le_dec (P + Q) (2 ^ 53 * u)) as [Zlo|Zhi].
    + replace N with ((4 * M) * 2 ^ e) by (rewrite <- Eu; lia).
      apply rne_pos_1_unique.
      * apply grid_exp_unique; [lia|]. rewrite <- Eu. lia.
      * rewrite <- Eu. lia.
      * rewrite Z.odd_mul. reflexivity.
    + replace N with ((2 * M) * 2 ^ (e + 1)) by (rewrite E1; lia).
      apply rne_pos_1_unique.
      * apply grid_exp_unique; [lia|]. rewrite E1. lia.
      * rewrite E1. lia.
      * rewrite Z.odd_mul. reflexivity.
  - (* N - P in the binade of N *)
    assert (EY : grid_exp (N - P) = e + 1) by (apply grid_exp_unique; [lia|rewrite E1; lia]).
    rewrite EY, E1 in Near.
    destruct (Z_lt_le_dec (P + Q) (2 ^ 53 * u)) as [Zlo|Zhi].
    + exfalso.
      assert (M < 2 ^ 51 + 1) by nia.
      assert (N = 2 ^ 53 * u) by nia.
      assert (P = 0) by lia.
      assert (Q = N).
      { rewrite EQ. subst P. rewrite Z.sub_0_r.
        rewrite <- (Z.mul_1_r N) at 1. apply rne_pos_exact; [lia|].
        exists (2 ^ 52), (e + 1). rewrite E1. repeat split; lia. }
      lia.
    + replace N with ((2 * M) * 2 ^ (e + 1)) by (rewrite E1; lia).
      apply rne_pos_1_unique.
      * apply grid_exp_unique; [lia|]. rewrite E1. lia.
      * rewrite E1. lia.
      * rewrite Z.odd_mul. reflexivity.
Qed.


(** ** Operations on finite values *)

Lemma one_pos : 0 < one.
Proof. reflexivity. Qed.

Lemma one_half : one = 2 * 2 ^ 1073.
Proof. reflexivity. Qed.

Lemma huge_one : huge = 2 ^ 1024 * one.
Proof. reflexivity. Qed.

Lemma mk_opp v : mk (- v) = fneg (mk v).
Proof.
  unfold mk.
  assert (0 < huge) by reflexivity.
  destruct (Z.leb_spec huge (- v)); destruct (Z.leb_spec huge v);
    destruct (Z.leb_spec (- v) (- huge)); destruct (Z.leb_spec v (- huge));
    simpl; try reflexivity; lia.
Qed.

Lemma round_opp a b : 0 < b -> round (- a) b = fneg (round a b).
Proof. intros Hb. unfold round. rewrite rne_opp by assumption. apply mk_opp. Qed.

(** A non-negative exact result below a float [v] rounds to a finite
    float below [v]. *)
Lemma round_pos_le a b v :
  0 <= a -> 0 < b -> representable v -> v < huge -> a <= v * b ->
  exists w, round a b = Fin w /\ 0 <= w <= v /\ representable w.
Proof.
  intros Ha Hb Hv Hh H. exists (rne_pos a b).
  assert (0 <= rne_pos a b) by (apply rne_pos_nonneg; lia).
  assert (rne_pos a b <= v) by (apply rne_pos_le; auto).
  split; [|split; [lia|apply rne_pos_representable; lia]].
  unfold round. rewrite rne_nonneg_eq by lia. apply mk_fin. lia.
Qed.

Lemma round_exact v b :
  0 < b -> representable v -> v < huge -> 0 <= v -> round (v * b) b = Fin v.
Proof.
  intros Hb Hv Hh H0. unfold round.
  rewrite rne_nonneg_eq by nia. rewrite rne_pos_exact by auto.
  apply mk_fin. lia.
Qed.

Lemma representable_scaled n k :
  0 <= n < 2 ^ 53 -> 0 <= k -> representable (n * 2 ^ k).
Proof. intros Hn Hk. exists n, k. auto. Qed.

Lemma of_int_exact n : 0 <= n < 2 ^ 53 -> of_int n = Fin (n * one).
Proof.
  intros Hn. unfold of_int.
  rewrite <- (Z.mul_1_r (n * one)) at 1.
  apply round_exact; try lia.
  - unfold one. apply representable_scaled; lia.
  - rewrite huge_one. pose proof one_pos.
    apply Z.mul_lt_mono_pos_r; [assumption|].
    assert (2 ^ 53 < 2 ^ 1024) by reflexivity. lia.
  - pose proof one_pos. nia.
Qed.

Lemma of_int_opp n : of_int (- n) = fneg (of_int n).
Proof.
  unfold of_int. rewrite Z.mul_opp_l. apply round_opp. lia.
Qed.

Lemma fmul_fneg_l x y :
  fmul (fneg (Fin x)) (Fin y) = fneg (fmul (Fin x) (Fin y)).
Proof.
  simpl. rewrite Z.mul_opp_l. apply round_opp. apply one_pos.
Qed.

Lemma fsub_fneg x y :
  fsub (fneg (Fin x)) (fneg (Fin y)) = fneg (fsub (Fin x) (Fin y)).
Proof.
  unfold fsub. simpl. rewrite <- round_opp by lia. f_equal; lia.
Qed.

Lemma fadd_fneg x y :
  fadd (fneg (Fin x)) (fneg (Fin y)) = fneg (fadd (Fin x) (Fin y)).
Proof.
  simpl. rewrite <- round_opp by lia. f_equal; lia.
Qed.

(** Position of a positive integer below 2^52 in its binade. *)
Lemma binade_of_count n :
  0 < n < 2 ^ 52 ->
  exists e M, 0 <= e /\ n * one = 4 * 2 ^ e * M /\
              2 ^ 53 * 2 ^ e <= n * one < 2 ^ 54 * 2 ^ e.
Proof.
  intros Hn.
  assert (Hs := Z.log2_spec n ltac:(lia)).
  assert (Hk0 := Z.log2_nonneg n).
  assert (Hk : Z.log2 n < 52) by (apply Z.log2_lt_pow2; lia).
  set (k := Z.log2 n) in *.
  exists (k + 1021), (n * 2 ^ (51 - k)).
  split; [lia|].
  replace (Z.succ k) with (k + 1) in Hs by lia.
  assert (E1 : one = 2 ^ 53 * 2 ^ 1021) by reflexivity.
  assert (Ek : 2 ^ (k + 1021) = 2 ^ k * 2 ^ 1021) by (apply Z.pow_add_r; lia).
  assert (Ek1 : 2 ^ (k + 1) = 2 * 2 ^ k) by (rewrite Z.pow_add_r by lia; change (2 ^ 1) with 2; lia).
  assert (E51 : 2 ^ k * 2 ^ (51 - k) = 2 ^ 51) by (rewrite <- Z.pow_add_r by lia; f_equal; lia).
  assert (0 < 2 ^ 1021) by reflexivity.
  assert (0 < 2 ^ k) by (apply Z.pow_pos_nonneg; lia).
  rewrite Ek, E1. rewrite Ek1 in Hs.
  remember (2 ^ 1021) as T. remember (2 ^ k) as K. remember (2 ^ (51 - k)) as L.
  assert (P53 : 2 ^ 53 = 4 * 2 ^ 51) by reflexivity.
  assert (P54 : 2 ^ 54 = 2 * 2 ^ 53) by reflexivity.
  split; [|split].
  - rewrite P53, <- E51. ring.
  - nia.
  - nia.
Qed.

(** The float sum of a part [p] of a count and of what is left of the
    count gives the count back, for counts below 2^52. *)
Lemma part_plus_rest n R :
  0 <= n < 2 ^ 52 -> 0 <= R -> 2 * R <= one ->
  let c := of_int n in
  let p := fmul c (Fin R) in
  fadd p (fsub c p) = c.
Proof.
  intros Hn HR HR2. cbv zeta.
  rewrite of_int_exact by (assert (2 ^ 52 < 2 ^ 53) by reflexivity; lia).
  pose proof one_pos as H1. pose proof one_half as Hh.
  assert (Hrep : representable (n * 2 ^ 1073)) by (apply representable_scaled; assert (2 ^ 52 < 2 ^ 53) by reflexivity; lia).
  assert (Hhuge : n * one < huge).
  { rewrite huge_one. apply Z.mul_lt_mono_pos_r; [assumption|].
    assert (2 ^ 52 < 2 ^ 1024) by reflexivity. lia. }
  assert (HrepN : representable (n * one)).
  { unfold one. apply representable_scaled; [|lia]. assert (2 ^ 52 < 2 ^ 53) by reflexivity; lia. }
  destruct (round_pos_le (n * one * R) one (n * 2 ^ 1073)) as (P & EP & [P0 PU] & _);
    try lia; try nia; auto.
  simpl fmul. rewrite EP.
  destruct (round_pos_le (n * one - P) 1 (n * one)) as (Q & EQ & [Q0 QU] & _);
    try lia; auto.
  assert (Esub : fsub (Fin (n * one)) (Fin P) = Fin Q).
  { unfold fsub. simpl. rewrite <- EQ. f_equal; lia. }
  rewrite Esub. simpl fadd.
  assert (EQ' : Q = rne_pos (n * one - P) 1).
  { unfold round in EQ. rewrite rne_nonneg_eq in EQ by lia.
    rewrite mk_fin in EQ; [congruence|].
    assert (rne_pos (n * one - P) 1 <= n * one) by (apply rne_pos_le; auto; lia).
    assert (0 <= rne_pos (n * one - P) 1) by (apply rne_pos_nonneg; lia). lia. }
  unfold round. rewrite rne_nonneg_eq by lia.
  assert (rne_pos (P + Q) 1 = n * one) as ->; [|apply mk_fin; lia].
  destruct (Z.eq_dec n 0) as [->|Hn0].
  - assert (P = 0) by lia. assert (Q = 0) by lia. subst P Q. simpl. apply rne_pos_0. lia.
  - destruct (binade_of_count n ltac:(lia)) as (e & M & He & EM & B).
    rewrite EQ'. apply (add_back e M); auto; lia.
Qed.

Lemma part_plus_rest_signed n R :
  - 2 ^ 52 < n < 2 ^ 52 -> 0 <= R -> 2 * R <= one ->
  let c := of_int n in
  let p := fmul c (Fin R) in
  fadd p (fsub c p) = c.
Proof.
  intros Hn HR HR2. cbv zeta.
  destruct (Z_lt_le_dec n 0) as [Hneg|Hpos].
  - replace n with (- - n) by lia. rewrite of_int_opp.
    assert (H := part_plus_rest (- n) R ltac:(lia) HR HR2). cbv zeta in H.
    assert (Hn' : 0 <= - n < 2 ^ 53) by (assert (2 ^ 52 < 2 ^ 53) by reflexivity; lia).
    rewrite (of_int_exact (- n) Hn') in *.
    rewrite fmul_fneg_l.
    destruct (fmul (Fin (- n * one)) (Fin R)) as [P| | |] eqn:EP.
    + rewrite fsub_fneg.
      destruct (fsub (Fin (- n * one)) (Fin P)) as [Q| | |] eqn:EQ; try discriminate.
      rewrite fadd_fneg. rewrite H. reflexivity.
    + simpl in H. discriminate.
    + simpl in H. discriminate.
    + simpl in H. discriminate.
  - apply part_plus_rest; auto. lia.
Qed.

Lemma pow2_lt_huge k : 0 <= k <= 1023 -> 2 ^ k * one < huge.
Proof.
  intros Hk. rewrite huge_one. apply Z.mul_lt_mono_pos_r; [apply one_pos|].
  apply Z.pow_lt_mono_r; lia.
Qed.

Lemma representable_pow2 k : 0 <= k -> representable (2 ^ k * one).
Proof.
  intros Hk. exists 1, (k + 1074). split; [split; [lia|reflexivity]|]. split; [lia|].
  unfold one. rewrite Z.pow_add_r by lia. lia.
Qed.

(** The conversion of a non-negative int64: finite, within the binade of
    the integer. *)
Lemma of_int_fin n :
  0 <= n < 2 ^ 63 ->
  exists c, of_int n = Fin c /\ 0 <= c /\ representable c /\ c < huge /\
            c <= 2 * n * one /\ (0 < n -> 0 < c).
Proof.
  intros Hn. pose proof one_pos as H1.
  destruct (Z.eq_dec n 0) as [->|Hn0].
  - exists 0. rewrite of_int_exact by (split; [lia|reflexivity]).
    repeat split; try lia; try reflexivity.
    exists 0, 0. repeat split; lia.
  - assert (Hs := Z.log2_spec n ltac:(lia)).
    assert (Hk0 := Z.log2_nonneg n).
    assert (Hk : Z.log2 n < 63) by (apply Z.log2_lt_pow2; lia).
    set (k := Z.log2 n) in *.
    replace (Z.succ k) with (k + 1) in Hs by lia.
    assert (Ek1 : 2 ^ (k + 1) = 2 * 2 ^ k) by (rewrite Z.pow_add_r by lia; change (2 ^ 1) with 2; lia).
    destruct (round_pos_le (n * one) 1 (2 ^ (k + 1) * one)) as (c & Ec & [c0 cU] & Hrep);
      try lia; try nia.
    + apply representable_pow2. lia.
    + apply pow2_lt_huge. lia.
    + exists c. unfold of_int. rewrite Ec.
      assert (2 ^ (k + 1) * one < huge) by (apply pow2_lt_huge; lia).
      assert (Hpk : 0 < 2 ^ k) by (apply Z.pow_pos_nonneg; lia).
      assert (Hpk1 : 0 < 2 ^ k * one) by (apply Z.mul_pos_pos; lia).
      assert (Hle : 2 ^ (k + 1) * one <= 2 * n * one).
      { rewrite Ek1. apply Z.mul_le_mono_nonneg_r; lia. }
      assert (2 ^ k * one <= c).
      { unfold round in Ec. rewrite rne_nonneg_eq in Ec by nia.
        assert (rne_pos (n * one) 1 <= 2 ^ (k + 1) * one).
        { apply rne_pos_le; try lia; try nia. apply representable_pow2; lia. }
        assert (0 <= rne_pos (n * one) 1) by (apply rne_pos_nonneg; nia).
        rewrite mk_fin in Ec by lia. injection Ec as <-.
        apply rne_pos_ge;
          [lia | lia | apply representable_pow2; lia
          | rewrite Z.mul_1_r; apply Z.mul_le_mono_nonneg_r; lia]. }
      repeat split; auto; lia.
Qed.

(** A share [R <= 1/2] of a non-negative count and the rest of it. *)
Lemma share_bounds n R :
  0 <= n < 2 ^ 63 -> 0 <= R -> 2 * R <= one ->
  exists c p q,
    of_int n = Fin c /\ fmul (of_int n) (Fin R) = Fin p /\
    fsub (of_int n) (fmul (of_int n) (Fin R)) = Fin q /\
    0 <= p <= c /\ p <= n * one /\ 0 <= q <= c.
Proof.
  intros Hn HR HR2. pose proof one_pos as H1.
  destruct (of_int_fin n Hn) as (c & Ec & c0 & Hrep & Hh & cU & _).
  exists c. rewrite Ec.
  (* p is below the float c and below the exact half of 2 n *)
  destruct (round_pos_le (c * R) one c) as (p & Ep & [p0 pU] & _); try lia; try nia; auto.
  assert (Hpn : p <= n * one).
  { destruct (Z.eq_dec n 0) as [->|Hn0]; [lia|].
    assert (Hs := Z.log2_spec n ltac:(lia)).
    assert (Hk0 := Z.log2_nonneg n).
    assert (Hk : Z.log2 n < 63) by (apply Z.log2_lt_pow2; lia).
    set (k := Z.log2 n) in *.
    replace (Z.succ k) with (k + 1) in Hs by lia.
    assert (Ek1 : 2 ^ (k + 1) = 2 * 2 ^ k) by (rewrite Z.pow_add_r by lia; change (2 ^ 1) with 2; lia).
    assert (Hc : c <= 2 ^ (k + 1) * one).
    { unfold of_int, round in Ec. rewrite rne_nonneg_eq in Ec by nia.
      assert (rne_pos (n * one) 1 <= 2 ^ (k + 1) * one).
      { apply rne_pos_le; try lia; try nia. apply representable_pow2; lia. }
      assert (0 <= rne_pos (n * one) 1) by (apply rne_pos_nonneg; nia).
      assert (2 ^ (k + 1) * one < huge) by (apply pow2_lt_huge; lia).
      rewrite mk_fin in Ec by lia. injection Ec as <-. assumption. }
    assert (p <= 2 ^ k * one); [|nia].
    unfold round in Ep. rewrite rne_nonneg_eq in Ep by nia.
    assert (0 <= rne_pos (c * R) one) by (apply rne_pos_nonneg; nia).
    assert (rne_pos (c * R) one <= 2 ^ k * one).
    { apply rne_pos_le; try lia; try nia. apply representable_pow2; lia. }
    assert (2 ^ k * one < huge) by (apply pow2_lt_huge; lia).
    rewrite mk_fin in Ep by lia. injection Ep as <-. assumption. }
  destruct (round_pos_le (c - p) 1 c) as (q & Eq & [q0 qU] & _); try lia; auto.
  exists p, q. simpl fmul. rewrite Ep.
  repeat split; auto; unfold fsub; simpl; rewrite <- Eq; f_equal; lia.
Qed.

(** On the numbers of the scenarios the operations give what the Standard
    Library's reference implementation of binary64 gives. *)
Example agrees_with_reference :
  let r := of_decimal 30 100 in
  let c := of_int 7 in
  let p := fmul c r in
  let q := fsub c p in
  let big := of_int 6830977400589305 in
  r = of_spec (SpecFloat.SFdiv 53 1024 (to_spec (of_int 30)) (to_spec (of_int 100))) /\
  p = of_spec (SpecFloat.SFmul 53 1024 (to_spec c) (to_spec r)) /\
  q = of_spec (SpecFloat.SFsub 53 1024 (to_spec c) (to_spec p)) /\
  fadd p q = of_spec (SpecFloat.SFadd 53 1024 (to_spec p) (to_spec q)) /\
  fdiv p c = of_spec (SpecFloat.SFdiv 53 1024 (to_spec p) (to_spec c)) /\
  fmul big r = of_spec (SpecFloat.SFmul 53 1024 (to_spec big) (to_spec r)) /\
  fsub big (fmul big r) =
    of_spec (SpecFloat.SFsub 53 1024 (to_spec big) (to_spec (fmul big r))).
Proof. vm_compute. repeat split. Qed.

End F64Facts.

Import F64 F64Facts Py Dashboard.
Local Open Scope Z_scope.

(** ** [str.split()] *)

Lemma split_from_spaces ws s :
  forallb isspace ws = true -> split_from (ws ++ s) [] = split_from s [].
Proof.
  induction ws as [|c ws IH]; simpl; [reflexivity|].
  intros H. apply andb_true_iff in H as [Hc Hws]. rewrite Hc. auto.
Qed.

Lemma split_from_token tok' rest tok :
  forallb (fun c => negb (isspace c)) tok' = true ->
  match rest with [] => True | c :: _ => isspace c = true end ->
  tok ++ tok' <> [] ->
  exists more, split_from (tok' ++ rest) tok = (tok ++ tok') :: more.
Proof.
  revert tok. induction tok' as [|c tok' IH]; intros tok Ht Hr Hne; simpl.
  - rewrite app_nil_r in *. destruct rest as [|c r]; simpl.
    + destruct tok; [congruence|]. eexists. reflexivity.
    + rewrite Hr. destruct tok; [congruence|]. eexists. reflexivity.
  - simpl in Ht. apply andb_true_iff in Ht as [Hc Ht].
    apply negb_true_iff in Hc. rewrite Hc.
    destruct (IH (tok ++ [c]) Ht Hr) as [more E].
    + destruct tok; discriminate.
    + exists more. rewrite E. rewrite <- app_assoc. reflexivity.
Qed.

Lemma split_first ws tok rest :
  forallb isspace ws = true -> tok <> [] ->
  forallb (fun c => negb (isspace c)) tok = true ->
  match rest with [] => True | c :: _ => isspace c = true end ->
  item0 (split (ws ++ tok ++ rest)) = Ok tok.
Proof.
  intros Hws Hne Htok Hrest. unfold split.
  rewrite split_from_spaces by assumption.
  destruct (split_from_token tok rest [] Htok Hrest) as [more E]; [assumption|].
  rewrite E. reflexivity.
Qed.

Lemma split_all_space s : forallb isspace s = true -> split s = [].
Proof.
  intros H. unfold split. rewrite <- (app_nil_r s).
  rewrite split_from_spaces by assumption. reflexivity.
Qed.

(** Every str is blank or starts, after blanks, with a token. *)
Lemma token_decomposition s :
  forallb isspace s = true \/
  exists ws tok rest,
    s = ws ++ tok ++ rest /\ forallb isspace ws = true /\ tok <> [] /\
    forallb (fun c => negb (isspace c)) tok = true /\
    match rest with [] => True | c :: _ => isspace c = true end.
Proof.
  induction s as [|c s IH]; [left; reflexivity|].
  destruct (isspace c) eqn:Hc.
  - destruct IH as [H|(ws & tok & rest & -> & Hws & Hne & Htok & Hrest)].
    + left. simpl. rewrite Hc. assumption.
    + right. exists (c :: ws), tok, rest. simpl. rewrite Hc. auto.
  - right. destruct IH as [H|(ws & tok & rest & -> & Hws & Hne & Htok & Hrest)].
    + exists [], [c], s. simpl. rewrite Hc. simpl. repeat split; auto; try discriminate.
      destruct s as [|d s']; [exact I|]. simpl in H. apply andb_true_iff in H. tauto.
    + destruct ws as [|w ws].
      * exists [], (c :: tok), rest. simpl. rewrite Hc. simpl in *.
        repeat split; auto; try discriminate.
      * exists [], [c], ((w :: ws) ++ tok ++ rest). simpl. rewrite Hc. simpl.
        simpl in Hws. apply andb_true_iff in Hws. repeat split; try tauto; discriminate.
Qed.

(** C5. The province of a cleaned region is its first whitespace-delimited
    token; on a cleaned region that is empty or holds no token the
    computation raises (IndexError), and with it the whole of
    preprocess_and_analyze. *)
Theorem first_token_spec :
  (forall s,
     (forallb isspace s = true /\ first_token (PStr s) = Raise IndexError) \/
     (exists ws tok rest,
        s = ws ++ tok ++ rest /\ forallb isspace ws = true /\ tok <> [] /\
        forallb (fun c => negb (isspace c)) tok = true /\
        match rest with [] => True | c :: _ => isspace c = true end /\
        first_token (PStr s) = Ok tok)) /\
  first_token (PStr []) = Raise IndexError /\
  first_token (PStr (u "서울특별시 강남구")) = Ok (u "서울특별시") /\
  (forall df rows r,
     preprocess_and_analyze df = Ok rows -> In r rows ->
     first_token (PStr (region_clean r)) = Ok (sido r)) /\
  (forall df raw s,
     In raw df -> clean_region (raw_region raw) = PStr s ->
     forallb isspace s = true ->
     exists e, preprocess_and_analyze df = Raise e).
Proof.
  split; [|split; [|split; [|split]]].
  - intros s. destruct (token_decomposition s)
      as [H|(ws & tok & rest & -> & Hws & Hne & Htok & Hrest)].
    + left. split; [assumption|]. simpl. rewrite split_all_space by assumption.
      reflexivity.
    + right. exists ws, tok, rest. repeat split; auto.
      simpl. apply split_first; assumption.
  - reflexivity.
  - vm_compute. reflexivity.
  - intros df rows r Hpre Hin.
    unfold preprocess_and_analyze in Hpre.
    destruct (map_result region_columns df) as [rcs|e] eqn:E; simpl in Hpre; [|discriminate].
    injection Hpre as <-.
    revert rcs E Hin. induction df as [|raw df IH]; intros rcs E Hin; simpl in *.
    + injection E as <-. destruct Hin.
    + destruct (region_columns raw) as [rc|e] eqn:Erc; simpl in E; [|discriminate].
      destruct (map_result region_columns df) as [rcs'|e] eqn:E'; simpl in E; [|discriminate].
      injection E as <-. simpl in Hin. destruct Hin as [<-|Hin].
      * simpl. unfold region_columns in Erc.
        destruct (clean_region (raw_region raw)) as [s| |]; simpl in Erc; try discriminate.
        destruct (item0 (split s)) as [tok|e] eqn:Et; simpl in Erc; [|discriminate].
        injection Erc as <-. simpl. exact Et.
      * eapply IH; eauto.
  - intros df raw s Hin Hc Hs.
    unfold preprocess_and_analyze.
    assert (Hfail : exists e, region_columns raw = Raise e).
    { unfold region_columns. rewrite Hc. simpl.
      rewrite split_all_space by assumption. simpl. eauto. }
    destruct Hfail as [e He].
    assert (exists e', map_result region_columns df = Raise e') as [e' ->]; [|simpl; eauto].
    induction df as [|x df IH]; [destruct Hin|].
    simpl. destruct Hin as [->|Hin].
    + rewrite He. simpl. eauto.
    + destruct (region_columns x); simpl; [|eauto].
      destruct (IH Hin) as [e' ->]. simpl. eauto.
Qed.

(** ** [re.sub(r'\d+$', '', text)] *)

Lemma newline_not_decimal : isdecimal newline = false.
Proof. reflexivity. Qed.

Lemma ends_with_digit_snoc s c : ends_with_digit (s ++ [c]) = isdecimal c.
Proof. unfold ends_with_digit. rewrite rev_app_distr. reflexivity. Qed.

Lemma ends_with_digit_newline_snoc s c n :
  ends_with_digit_newline (s ++ [c; n]) = (n =? newline) && isdecimal c.
Proof. unfold ends_with_digit_newline. rewrite rev_app_distr. reflexivity. Qed.

Lemma match_upto_none s k :
  (forall j, (1 <= j <= k)%nat -> at_dollar (skipn j s) = false) ->
  match_upto s k = None.
Proof.
  induction k as [|k IH]; intros H; [reflexivity|].
  cbn [match_upto]. rewrite (H (S k)) by lia. apply IH. intros j Hj. apply H. lia.
Qed.

Lemma digit_run_le s : (digit_run s <= List.length s)%nat.
Proof.
  induction s as [|c s IH]; simpl; [lia|]. destruct (isdecimal c); simpl; lia.
Qed.

Lemma digit_run_all ds t :
  forallb isdecimal ds = true ->
  digit_run (ds ++ t) = (List.length ds + digit_run t)%nat.
Proof.
  induction ds as [|c ds IH]; simpl; [reflexivity|].
  intros H. apply andb_true_iff in H as [Hc Hds]. rewrite Hc, IH by assumption.
  reflexivity.
Qed.

(** The characters the run covers are digits. *)
Lemma digit_run_digit s j c :
  (j < digit_run s)%nat -> nth_error s j = Some c -> isdecimal c = true.
Proof.
  revert j. induction s as [|d s IH]; intros j Hj Hn; simpl in *; [lia|].
  destruct (isdecimal d) eqn:Hd; [|lia].
  destruct j as [|j]; simpl in Hn.
  - injection Hn as <-. assumption.
  - apply (IH j); [lia|assumption].
Qed.

(** A run that stops before the end of [s] is not changed by what follows
    [s]. *)
Lemma digit_run_app s t :
  (digit_run s < List.length s)%nat -> digit_run (s ++ t) = digit_run s.
Proof.
  induction s as [|c s IH]; simpl; [lia|].
  destruct (isdecimal c); [|reflexivity].
  intros H. rewrite IH by lia. reflexivity.
Qed.

Lemma ends_with_digit_cons c s :
  s <> [] -> ends_with_digit (c :: s) = ends_with_digit s.
Proof.
  intros H. destruct (exists_last H) as (s' & x & ->).
  rewrite app_comm_cons, !ends_with_digit_snoc. reflexivity.
Qed.

Lemma ends_with_digit_newline_cons c s :
  (2 <= List.length s)%nat ->
  ends_with_digit_newline (c :: s) = ends_with_digit_newline s.
Proof.
  intros H. destruct s as [|a s]; [simpl in H; lia|].
  destruct (exists_last (l := a :: s) ltac:(discriminate)) as (s1 & y & E).
  rewrite E in *. destruct s1 as [|b s1]; [simpl in H; lia|].
  destruct (exists_last (l := b :: s1) ltac:(discriminate)) as (s2 & x & E2).
  rewrite E2. rewrite <- app_assoc. simpl.
  rewrite app_comm_cons, !ends_with_digit_newline_snoc. reflexivity.
Qed.

Lemma digit_run_lt s :
  s <> [] -> ends_with_digit s = false -> (digit_run s < List.length s)%nat.
Proof.
  induction s as [|c s IH]; [congruence|]. intros _ He. simpl.
  destruct (isdecimal c) eqn:Hc; [|lia].
  destruct s as [|d s'].
  - unfold ends_with_digit in He. simpl in He. congruence.
  - rewrite ends_with_digit_cons in He by discriminate.
    specialize (IH ltac:(discriminate) He). simpl in *. lia.
Qed.

Lemma ends_with_digit_app s1 s2 :
  s2 <> [] -> ends_with_digit (s1 ++ s2) = ends_with_digit s2.
Proof.
  intros H. induction s1 as [|c s1 IH]; [reflexivity|].
  simpl. rewrite ends_with_digit_cons; [assumption|].
  destruct s1; simpl; [assumption|discriminate].
Qed.

Lemma at_dollar_long s : (2 <= List.length s)%nat -> at_dollar s = false.
Proof. destruct s as [|a [|b s]]; simpl; intros; try lia; reflexivity. Qed.

Lemma at_dollar_newline s : s <> [] -> at_dollar s = true -> s = [newline].
Proof.
  destruct s as [|a [|b s]]; simpl; intros Hne H; try congruence.
  apply Z.eqb_eq in H. congruence.
Qed.

(** No match starts in a text that does not end with a digit, when more
    text follows it. *)
Lemma no_match_before s2 t :
  s2 <> [] -> ends_with_digit s2 = false -> t <> [] ->
  match_here (s2 ++ t) = None.
Proof.
  intros Hne He Ht. unfold match_here.
  pose proof (digit_run_lt s2 Hne He) as Hlt.
  rewrite digit_run_app by assumption.
  apply match_upto_none. intros j Hj.
  apply at_dollar_long. rewrite length_skipn, length_app.
  destruct t; [congruence|]. simpl. lia.
Qed.

(** No match starts in a text that ends neither with a digit nor with a
    digit and a newline. *)
Lemma no_match_suffix s1 s2 :
  s2 <> [] -> ends_with_digit (s1 ++ s2) = false ->
  ends_with_digit_newline (s1 ++ s2) = false ->
  match_here s2 = None.
Proof.
  intros Hne He Hn. rewrite ends_with_digit_app in He by assumption.
  unfold match_here.
  pose proof (digit_run_lt s2 Hne He) as Hlt.
  apply match_upto_none. intros j Hj.
  destruct (at_dollar (skipn j s2)) eqn:Ed; [exfalso|reflexivity].
  assert (Hsk : skipn j s2 <> []).
  { intros E. apply (f_equal (@List.length Z)) in E. rewrite length_skipn in E.
    simpl in E. lia. }
  apply at_dollar_newline in Ed; [|assumption].
  assert (Hf : firstn j s2 <> []).
  { intros E. apply (f_equal (@List.length Z)) in E. rewrite length_firstn in E.
    simpl in E. lia. }
  destruct (exists_last Hf) as (f' & c & Ef).
  assert (Hc : isdecimal c = true).
  { apply (digit_run_digit s2 (j - 1)); [lia|].
    assert (Hlen : List.length f' = (j - 1)%nat).
    { apply (f_equal (@List.length Z)) in Ef.
      rewrite length_firstn, length_app in Ef. simpl in Ef. lia. }
    rewrite <- (firstn_skipn j s2), Ef, <- app_assoc.
    rewrite nth_error_app2 by lia. rewrite Hlen, Nat.sub_diag. reflexivity. }
  rewrite <- (firstn_skipn j s2), Ef, Ed in Hn.
  rewrite <- app_assoc in Hn. simpl in Hn.
  rewrite app_assoc, ends_with_digit_newline_snoc in Hn.
  rewrite Hc in Hn. unfold newline in Hn. simpl in Hn. discriminate.
Qed.

Lemma scan_keep s t :
  (forall s1 s2, s = s1 ++ s2 -> s2 <> [] -> match_here (s2 ++ t) = None) ->
  sub_scan (s ++ t) 0 = s ++ sub_scan t 0.
Proof.
  induction s as [|c s IH]; intros H; [reflexivity|].
  simpl app. simpl sub_scan.
  pose proof (H [] (c :: s) eq_refl ltac:(discriminate)) as Hm.
  simpl app in Hm. rewrite Hm. f_equal. apply IH.
  intros s1 s2 -> Hne. apply (H (c :: s1) s2); [reflexivity|assumption].
Qed.

Lemma scan_skip a b : sub_scan (a ++ b) (List.length a) = sub_scan b 0.
Proof. induction a as [|c a IH]; simpl; [destruct b; reflexivity|exact IH]. Qed.

Lemma match_upto_S s k :
  match_upto s (S k) =
    if at_dollar (skipn (S k) s) then Some (S k) else match_upto s k.
Proof. reflexivity. Qed.

Lemma skipn_length_app (a t : str) : skipn (List.length a) (a ++ t) = t.
Proof. induction a as [|c a IH]; simpl; [reflexivity|exact IH]. Qed.

Lemma match_digits ds t :
  ds <> [] -> forallb isdecimal ds = true -> at_dollar t = true -> digit_run t = O ->
  match_here (ds ++ t) = Some (List.length ds).
Proof.
  intros Hne Hd Ht Hr. unfold match_here.
  rewrite digit_run_all, Hr, Nat.add_0_r by assumption.
  pose proof (skipn_length_app ds t) as Hs.
  destruct (List.length ds) as [|k] eqn:El.
  - destruct ds; [congruence|discriminate].
  - rewrite match_upto_S, Hs, Ht. reflexivity.
Qed.

(** The trailing run is dropped, and what stands after it is kept. *)
Lemma scan_digits ds t :
  ds <> [] -> forallb isdecimal ds = true -> at_dollar t = true -> digit_run t = O ->
  sub_scan (ds ++ t) 0 = sub_scan t 0.
Proof.
  intros Hne Hd Ht Hr.
  pose proof (match_digits ds t Hne Hd Ht Hr) as Hm.
  destruct ds as [|c ds]; [congruence|].
  simpl app in *. simpl sub_scan. rewrite Hm. simpl List.length.
  apply scan_skip.
Qed.

Lemma re_sub_strip s ds t :
  ends_with_digit s = false -> ds <> [] -> forallb isdecimal ds = true ->
  at_dollar t = true -> digit_run t = O ->
  re_sub_digits_end (s ++ ds ++ t) = s ++ sub_scan t 0.
Proof.
  intros He Hne Hd Ht Hr. unfold re_sub_digits_end.
  rewrite scan_keep.
  - rewrite scan_digits by assumption. reflexivity.
  - intros s1 s2 -> Hs2. apply no_match_before; auto.
    + rewrite ends_with_digit_app in He by assumption. exact He.
    + destruct ds; [congruence|discriminate].
Qed.

Lemma re_sub_keep s :
  ends_with_digit s = false -> ends_with_digit_newline s = false ->
  re_sub_digits_end s = s.
Proof.
  intros He Hn. unfold re_sub_digits_end.
  rewrite <- (app_nil_r s) at 1. rewrite scan_keep.
  - simpl. apply app_nil_r.
  - intros s1 s2 -> Hs2. rewrite app_nil_r. eapply no_match_suffix; eauto.
Qed.

(** C4 (as amended). clean_region removes the whole trailing run of
    decimal digits of a str, also when one newline ends the text after the
    run (the newline stays); any other str, the empty one included, and any
    value that is no str pass through unchanged. *)
Theorem clean_region_spec :
  (forall n, clean_region (PInt n) = PInt n) /\
  (forall x, clean_region (PFloat x) = PFloat x) /\
  clean_region (PStr []) = PStr [] /\
  (forall s ds,
     ends_with_digit s = false -> ds <> [] -> forallb isdecimal ds = true ->
     clean_region (PStr (s ++ ds)) = PStr s /\
     clean_region (PStr (s ++ ds ++ [newline])) = PStr (s ++ [newline])) /\
  (forall s,
     ends_with_digit s = false -> ends_with_digit_newline s = false ->
     clean_region (PStr s) = PStr s) /\
  clean_region (PStr (u "서울특별시 강남구1")) = PStr (u "서울특별시 강남구") /\
  clean_region (PStr (u "부산 해운대구")) = PStr (u "부산 해운대구").
Proof.
  repeat split; try reflexivity.
  - simpl. f_equal. rewrite <- (app_nil_r ds).
    rewrite re_sub_strip by auto. simpl. apply app_nil_r.
  - simpl. f_equal. rewrite re_sub_strip by auto. reflexivity.
  - intros s He Hn. simpl. f_equal. apply re_sub_keep; assumption.
Qed.

Lemma clean_region_spec_witness :
  clean_region (PStr (u "서울특별시 강남구" ++ u "12")) = PStr (u "서울특별시 강남구") /\
  clean_region (PStr (u "서울특별시 강남구" ++ u "12" ++ [newline])) =
    PStr (u "서울특별시 강남구" ++ [newline]).
Proof.
  apply (proj1 (proj2 (proj2 (proj2 clean_region_spec)))).
  - reflexivity.
  - discriminate.
  - reflexivity.
Defined.

(** C4, the claim as stated fails: "A1" followed by a newline does not end
    with a digit, and its digit is removed. *)
Lemma clean_region_counterexample :
  ends_with_digit [65; 49; newline] = false /\
  clean_region (PStr [65; 49; newline]) = PStr [65; newline] /\
  clean_region (PStr [65; 49; newline]) <> PStr [65; 49; newline].
Proof.
  split; [reflexivity|]. split; [reflexivity|]. discriminate.
Qed.

Lemma str_eqb_true a b : a = b -> str_eqb a b = true.
Proof. intros ->. unfold str_eqb. apply bool_decide_eq_true_2. reflexivity. Qed.

Lemma str_eqb_false a b : a <> b -> str_eqb a b = false.
Proof. intros H. unfold str_eqb. apply bool_decide_eq_false_2. assumption. Qed.

Lemma str_eqb_eq a b : str_eqb a b = true <-> a = b.
Proof. unfold str_eqb. apply bool_decide_eq_true. Qed.

Ltac lookup_step t k :=
  destruct (decide (k = t)) as [E|N];
  [ rewrite (str_eqb_true t k) by (symmetry; exact E);
    rewrite <- E; rewrite lookup_insert_eq; reflexivity
  | rewrite (str_eqb_false t k) by (intros E'; apply N; symmetry; exact E');
    rewrite lookup_insert_ne by exact N; clear N ].

(** The dictionary answers as the table does. *)
Lemma apply_strategy_table t : apply_strategy t = strategy_table t.
Proof.
  unfold apply_strategy, strategy_map, strategy_table.
  lookup_step t (u "스쿨존어린이").
  lookup_step t (u "보행어린이").
  lookup_step t (u "보행노인").
  lookup_step t (u "자전거").
  rewrite lookup_empty. reflexivity.
Qed.

Lemma small_rate_spec x :
  small_rate x = true -> exists R, x = Fin R /\ 0 <= R /\ 16 * R <= 5 * one.
Proof.
  destruct x as [R| | |]; simpl; try discriminate.
  intros H. apply andb_true_iff in H as [H1 H2].
  exists R. split; [reflexivity|]. split; [apply Z.leb_le|apply Z.leb_le]; assumption.
Qed.

Lemma rates_small t : small_rate (rate (apply_strategy t)) = true.
Proof.
  rewrite apply_strategy_table. unfold strategy_table.
  repeat match goal with |- context [if ?b then _ else _] => destruct b end;
    vm_compute; reflexivity.
Qed.

(** ** The frame of [preprocess_and_analyze] *)

Lemma map_result_ok {A B : Type} (f : A -> result B) l ys :
  map_result f l = Ok ys -> Forall2 (fun x y => f x = Ok y) l ys.
Proof.
  revert ys. induction l as [|x l IH]; intros ys H; simpl in H.
  - injection H as <-. constructor.
  - destruct (f x) as [y|e] eqn:Ex; simpl in H; [|discriminate].
    destruct (map_result f l) as [ys'|e] eqn:El; simpl in H; [|discriminate].
    injection H as <-. constructor; auto.
Qed.

Lemma metric_columns_derived raw rc : derived (metric_columns raw rc).
Proof. unfold derived, metric_columns. simpl. auto. Qed.

Lemma preprocess_rows df rows :
  preprocess_and_analyze df = Ok rows ->
  Forall (fun r => exists raw rc, In raw df /\ region_columns raw = Ok rc /\
                     r = metric_columns raw rc) rows.
Proof.
  unfold preprocess_and_analyze. intros H.
  destruct (map_result region_columns df) as [rcs|e] eqn:E; simpl in H; [|discriminate].
  injection H as <-. apply map_result_ok in E.
  induction E as [|raw rc df' rcs' Hx HF IH]; simpl; constructor.
  - exists raw, rc. simpl. auto.
  - eapply Forall_impl; [|exact IH].
    intros r (raw' & rc' & Hin & Hr & ->). exists raw', rc'. simpl. auto.
Qed.

Lemma preprocess_derived df rows :
  preprocess_and_analyze df = Ok rows -> Forall derived rows.
Proof.
  intros H. eapply Forall_impl; [|exact (preprocess_rows df rows H)].
  intros r (raw & rc & _ & _ & ->). apply metric_columns_derived.
Qed.

Lemma filter_sido_incl df s r : In r (filter_sido df s) -> In r df.
Proof.
  unfold filter_sido. destruct (str_eqb s all_sido); [auto|].
  intros H. apply List.filter_In in H. tauto.
Qed.

Lemma filter_types_incl df ts r : In r (filter_types df ts) -> In r df.
Proof.
  unfold filter_types. destruct ts; [auto|].
  intros H. apply List.filter_In in H. tauto.
Qed.

Lemma filtered_incl df s ts r : In r (filtered df s ts) -> In r df.
Proof.
  unfold filtered. intros H. eapply filter_sido_incl, filter_types_incl, H.
Qed.

Lemma filtered_derived df s ts :
  Forall derived df -> Forall derived (filtered df s ts).
Proof.
  intros H. apply List.Forall_forall. intros r Hr.
  rewrite List.Forall_forall in H. apply H. eapply filtered_incl, Hr.
Qed.

(** ** Sums *)

Lemma wrap64_small z : - 2 ^ 63 <= z < 2 ^ 63 -> wrap64 z = z.
Proof.
  intros H. unfold wrap64. rewrite Z.mod_small; lia.
Qed.

Lemma int64_sum_acc l acc :
  Forall (fun n => 0 <= n) l -> 0 <= acc -> acc + exact_sum l < 2 ^ 63 ->
  List.fold_left (fun a n => wrap64 (a + n)) l acc = acc + exact_sum l.
Proof.
  revert acc. induction l as [|n l IH]; intros acc HF Ha Hs; simpl in *.
  - lia.
  - inversion HF as [|? ? Hn HF']; subst.
    assert (0 <= exact_sum l).
    { clear -HF'. induction HF'; simpl; lia. }
    rewrite wrap64_small by lia. rewrite IH; auto; lia.
Qed.

Lemma int64_sum_exact l :
  Forall (fun n => 0 <= n) l -> exact_sum l < 2 ^ 63 -> int64_sum l = exact_sum l.
Proof.
  intros HF Hs. unfold int64_sum. rewrite int64_sum_acc; auto; lia.
Qed.

Lemma exact_sum_nonneg l : Forall (fun n => 0 <= n) l -> 0 <= exact_sum l.
Proof. induction 1; simpl; lia. Qed.

(** The predicted reduction of a row is at most 5/16 of its count. *)
Lemma reduction_le_5_16 r :
  derived r -> 0 <= accident_count r -> 5 * accident_count r < 2 ^ 53 ->
  exists P, predicted_reduction r = Fin P /\
            0 <= P <= 5 * accident_count r * 2 ^ 1070.
Proof.
  intros (_ & Hr & Hp & _) Hn H5. rewrite Hp, Hr.
  destruct (small_rate_spec _ (rates_small (accident_type r))) as (R & -> & R0 & RU).
  set (n := accident_count r) in *.
  rewrite of_int_exact by lia.
  pose proof one_pos.
  assert (E16 : one = 16 * 2 ^ 1070) by reflexivity.
  assert (0 < 2 ^ 1070) by reflexivity.
  destruct (round_pos_le (n * one * R) one (5 * n * 2 ^ 1070)) as (P & EP & HP & _).
  - nia.
  - lia.
  - apply representable_scaled; lia.
  - rewrite huge_one, E16.
    assert (2 ^ 53 < 2 ^ 1024) by reflexivity. nia.
  - rewrite E16 in *. remember (2 ^ 1070) as T. nia.
  - exists P. simpl. auto.
Qed.

Lemma float64_sum_summed l : summed l (float64_sum l).
Proof.
  unfold float64_sum.
  assert (H : forall l0 acc, summed l0 acc ->
                summed (l0 ++ l) (List.fold_left fadd l acc)).
  { induction l as [|x l IH]; intros l0 acc Hs; simpl.
    - rewrite app_nil_r. exact Hs.
    - replace (l0 ++ x :: l) with ((l0 ++ [x]) ++ l) by (rewrite <- app_assoc; reflexivity).
      apply IH. apply summed_app; [exact Hs|apply summed_one]. }
  apply (H [] (Fin 0)). apply summed_nil.
Qed.

Lemma needed_sum_cons x l : needed_sum (x :: l) = count_needed x + needed_sum l.
Proof. reflexivity. Qed.

Lemma needed_sum_nil : needed_sum [] = 0.
Proof. reflexivity. Qed.

Lemma count_needed_ge P : 0 <= P -> P <= 5 * count_needed (Fin P) * 2 ^ 1070.
Proof.
  intros HP. unfold count_needed.
  assert (HD : 0 < 5 * 2 ^ 1070) by reflexivity.
  remember (5 * 2 ^ 1070) as D.
  pose proof (Z.div_mod (P + (D - 1)) D ltac:(lia)) as E.
  pose proof (Z.mod_pos_bound (P + (D - 1)) D HD) as B.
  replace (5 * ((P + (D - 1)) / D) * 2 ^ 1070) with (D * ((P + (D - 1)) / D)) by (subst D; ring).
  lia.
Qed.

Lemma count_needed_le P n :
  0 <= P -> P <= 5 * n * 2 ^ 1070 -> count_needed (Fin P) <= n.
Proof.
  intros HP H. unfold count_needed.
  assert (HD : 0 < 5 * 2 ^ 1070) by reflexivity.
  remember (5 * 2 ^ 1070) as D.
  assert ((P + (D - 1)) / D < n + 1); [|lia].
  apply Z.div_lt_upper_bound; [assumption|].
  replace (5 * n * 2 ^ 1070) with (D * n) in H by (subst D; ring). lia.
Qed.

Lemma count_needed_nonneg P : 0 <= P -> 0 <= count_needed (Fin P).
Proof.
  intros HP. unfold count_needed.
  assert (HD : 0 < 5 * 2 ^ 1070) by reflexivity.
  remember (5 * 2 ^ 1070) as D.
  apply Z.div_pos; lia.
Qed.

Lemma needed_sum_nonneg l : Forall finite_nonneg l -> 0 <= needed_sum l.
Proof.
  induction 1 as [|x l (P & -> & HP) HF IH];
    [rewrite needed_sum_nil; lia|rewrite needed_sum_cons].
  pose proof (count_needed_nonneg P HP). lia.
Qed.

Lemma needed_sum_app l1 l2 : needed_sum (l1 ++ l2) = needed_sum l1 + needed_sum l2.
Proof.
  induction l1 as [|x l1 IH]; [reflexivity|].
  simpl app. rewrite !needed_sum_cons. lia.
Qed.

Lemma needed_sum_perm l l' : Permutation l l' -> needed_sum l = needed_sum l'.
Proof.
  induction 1; rewrite ?needed_sum_cons; lia.
Qed.

(** However the additions are ordered, the sum of non-negative values
    stays below 5/16 of the counts they need. *)
Lemma summed_bound l s :
  summed l s -> Forall finite_nonneg l -> 5 * needed_sum l < 2 ^ 53 ->
  exists V, s = Fin V /\ 0 <= V <= 5 * needed_sum l * 2 ^ 1070.
Proof.
  induction 1 as [|x|l1 l2 s1 s2 H1 IH1 H2 IH2|l l' s HP Hs IH]; intros HF HS.
  - exists 0. rewrite needed_sum_nil. split; [reflexivity|lia].
  - inversion HF as [|? ? (P & -> & HP0) _]; subst.
    exists P. split; [reflexivity|]. rewrite needed_sum_cons, needed_sum_nil.
    pose proof (count_needed_ge P HP0). lia.
  - apply Forall_app in HF as [HF1 HF2].
    rewrite needed_sum_app in *.
    pose proof (needed_sum_nonneg l1 HF1). pose proof (needed_sum_nonneg l2 HF2).
    destruct (IH1 HF1 ltac:(lia)) as (V1 & -> & HV1).
    destruct (IH2 HF2 ltac:(lia)) as (V2 & -> & HV2).
    assert (0 < 2 ^ 1070) by reflexivity.
    destruct (round_pos_le (V1 + V2) 1 (5 * (needed_sum l1 + needed_sum l2) * 2 ^ 1070))
      as (W & EW & HW & _).
    + lia.
    + lia.
    + apply representable_scaled; lia.
    + assert (E : huge = 2 ^ 1028 * 2 ^ 1070) by reflexivity. rewrite E.
      apply Z.mul_lt_mono_pos_r; [assumption|].
      assert (2 ^ 53 < 2 ^ 1028) by reflexivity. lia.
    + lia.
    + exists W. split; [exact EW|exact HW].
  - assert (HF' : Forall finite_nonneg l).
    { rewrite List.Forall_forall in *. intros x Hx. apply HF.
      eapply Permutation_in; [exact HP|exact Hx]. }
    rewrite <- (needed_sum_perm l l' HP) in *. apply IH; assumption.
Qed.

Lemma reductions_needed f :
  Forall derived f -> Forall (fun r => 0 <= accident_count r) f ->
  5 * exact_sum (List.map accident_count f) < 2 ^ 53 ->
  Forall finite_nonneg (List.map predicted_reduction f) /\
  needed_sum (List.map predicted_reduction f) <= exact_sum (List.map accident_count f).
Proof.
  induction f as [|r f IH]; intros HD HN HS; simpl in *.
  - split; [constructor|]. rewrite needed_sum_nil. lia.
  - inversion HD as [|? ? Hd HD']; subst. inversion HN as [|? ? Hn HN']; subst.
    assert (Hrest := exact_sum_nonneg _ (proj2 (List.Forall_map _ _ _) HN')).
    destruct (reduction_le_5_16 r Hd Hn ltac:(lia)) as (P & EP & HP).
    destruct (IH HD' HN' ltac:(lia)) as [HF Hle].
    split.
    + constructor; [exists P; split; [exact EP|lia]|exact HF].
    + rewrite needed_sum_cons, EP.
      pose proof (count_needed_le P (accident_count r) ltac:(lia) ltac:(lia)). lia.
Qed.

Lemma scenario_preprocess : preprocess_and_analyze scenario_raw = Ok scenario_rows.
Proof. vm_compute. reflexivity. Qed.

Lemma school_preprocess : preprocess_and_analyze school_raw = Ok school_rows.
Proof. vm_compute. reflexivity. Qed.

(** ** The predicted columns *)

(** C2 (as amended). For every record of the derived table whose accident
    count is below 2^52 in magnitude, the binary64 sum
    predicted_reduction + predicted_remaining is exactly the accident
    count. *)
Theorem predicted_sum_exact (df : list raw_row) (rows : list row) (r : row) :
  preprocess_and_analyze df = Ok rows -> In r rows ->
  - 2 ^ 52 < accident_count r < 2 ^ 52 ->
  fadd (predicted_reduction r) (predicted_remaining r) = of_int (accident_count r).
Proof.
  intros Hpre Hin Hn.
  assert (Hd : derived r).
  { pose proof (preprocess_derived df rows Hpre) as HF.
    rewrite List.Forall_forall in HF. auto. }
  destruct Hd as (_ & Hr & Hp & Hq).
  rewrite Hq, Hp, Hr.
  destruct (small_rate_spec _ (rates_small (accident_type r))) as (R & -> & R0 & RU).
  apply part_plus_rest_signed; auto.
  pose proof one_pos. lia.
Qed.

Lemma predicted_sum_exact_witness :
  let r := metric_columns (List.hd large_raw scenario_raw) (u "A시 ", u "A시") in
  fadd (predicted_reduction r) (predicted_remaining r) = of_int (accident_count r).
Proof.
  intros r.
  apply (predicted_sum_exact scenario_raw scenario_rows r).
  - exact scenario_preprocess.
  - left. reflexivity.
  - split; reflexivity.
Defined.

(** C2, the claim as stated fails: a count above 2^52 whose two predicted
    columns do not add up to it. *)
Lemma predicted_sum_counterexample :
  let r := metric_columns large_raw (u "A시 ", u "A시") in
  preprocess_and_analyze [large_raw] = Ok [r] /\
  fadd (predicted_reduction r) (predicted_remaining r) <> of_int (accident_count r).
Proof.
  split.
  - vm_compute. reflexivity.
  - vm_compute. intros H. discriminate H.
Qed.

(** ** The KPI block *)

Lemma is_zero_fin v : v <> 0 -> is_zero (Fin v) = false.
Proof. destruct v; simpl; congruence. Qed.

Lemma of_int_pos_nonzero n : 0 < n -> is_zero (of_int n) = false.
Proof.
  intros Hn. unfold of_int, round. pose proof one_pos.
  rewrite rne_nonneg_eq by nia.
  assert (one <= rne_pos (n * one) 1).
  { apply rne_pos_ge; try lia.
    - change one with (2 ^ 0 * one). apply representable_pow2. lia. 
    - nia. }
  unfold mk. destruct (huge <=? rne_pos (n * one) 1); [reflexivity|].
  destruct (rne_pos (n * one) 1 <=? - huge); [reflexivity|].
  apply is_zero_fin. lia.
Qed.

Lemma reduction_pct_of_pos x n :
  0 < n ->
  reduction_pct_of x n = Ok (NFloat (fmul (fdiv x (of_int n)) (of_int 100))).
Proof.
  intros Hn. unfold reduction_pct_of, checked_div.
  destruct (Z.ltb_spec 0 n); [|lia].
  rewrite of_int_pos_nonzero by assumption. reflexivity.
Qed.

Lemma reduction_pct_of_nonpos x n : n <= 0 -> reduction_pct_of x n = Ok (NInt 0).
Proof.
  intros Hn. unfold reduction_pct_of. destruct (Z.ltb_spec 0 n); [lia|reflexivity].
Qed.

(** C6. reductionPct is totalReduction / totalAccidents * 100 when
    totalAccidents > 0 and 0 otherwise; the division is only reached with a
    non-zero divisor, so that no table, the empty one included, raises a
    division by zero. *)
Theorem reduction_pct_guarded (filtered_df : list row) :
  (0 < total_accidents filtered_df ->
   reduction_pct filtered_df =
     Ok (NFloat (fmul (fdiv (total_reduction filtered_df)
                            (of_int (total_accidents filtered_df)))
                      (of_int 100)))) /\
  (total_accidents filtered_df = 0 -> reduction_pct filtered_df = Ok (NInt 0)) /\
  (exists v, reduction_pct filtered_df = Ok v) /\
  reduction_pct [] = Ok (NInt 0).
Proof.
  unfold reduction_pct. split; [|split; [|split]].
  - apply reduction_pct_of_pos.
  - intros H. apply reduction_pct_of_nonpos. lia.
  - destruct (Z_lt_le_dec 0 (total_accidents filtered_df)) as [H|H].
    + eexists. apply reduction_pct_of_pos, H.
    + eexists. apply reduction_pct_of_nonpos, H.
  - reflexivity.
Qed.

Lemma reduction_pct_guarded_witness :
  reduction_pct scenario_rows =
    Ok (NFloat (fmul (fdiv (total_reduction scenario_rows)
                           (of_int (total_accidents scenario_rows)))
                     (of_int 100))).
Proof.
  apply (proj1 (reduction_pct_guarded scenario_rows)).
  reflexivity.
Defined.

(** C9. The two-record scenario, nothing deselected: 14 accidents, a
    predicted reduction of 10 x 0.30 + 4 x 0.25 = 4.0, and a percentage
    that shows as 28.6. *)
Theorem scenario_kpis :
  preprocess_and_analyze scenario_raw = Ok scenario_rows /\
  let filtered_df :=
    filtered scenario_rows all_sido (type_list (filter_sido scenario_rows all_sido)) in
  filtered_df = scenario_rows /\
  total_accidents filtered_df = 14 /\
  total_reduction filtered_df =
    fadd (fadd (Fin 0) (fmul (of_int 10) (of_decimal 30 100)))
         (fmul (of_int 4) (of_decimal 25 100)) /\
  total_reduction filtered_df = of_int 4 /\
  exists p, reduction_pct filtered_df = Ok (NFloat (Fin p)) /\
            2855 * one <= 100 * p < 2865 * one.
Proof.
  split; [exact scenario_preprocess|].
  assert (E : filtered scenario_rows all_sido
                (type_list (filter_sido scenario_rows all_sido)) = scenario_rows)
    by (vm_compute; reflexivity).
  cbv zeta. rewrite E.
  split; [reflexivity|]. split; [reflexivity|].
  split; [reflexivity|]. split; [vm_compute; reflexivity|].
  eexists. split.
  - vm_compute. reflexivity.
  - vm_compute. split; [intros H; discriminate H | reflexivity].
Qed.

(** The percentage of a table of derived rows with non-negative counts
    whose total is below 2^50 is at most 31.25, in whatever order the
    predicted reductions are added up. *)
Lemma reduction_pct_bound f s :
  Forall derived f -> Forall (fun r => 0 <= accident_count r) f ->
  exact_sum (List.map accident_count f) < 2 ^ 50 ->
  summed (List.map predicted_reduction f) s ->
  within_percent (reduction_pct_of s (total_accidents f)) 125 4.
Proof.
  intros HD HN HS Hsum.
  set (S := exact_sum (List.map accident_count f)) in *.
  assert (HN' : Forall (fun n => 0 <= n) (List.map accident_count f))
    by (apply List.Forall_map; exact HN).
  assert (S0 := exact_sum_nonneg _ HN'). fold S in S0.
  assert (P50 : 2 ^ 53 = 8 * 2 ^ 50) by reflexivity.
  assert (ET : total_accidents f = S).
  { unfold total_accidents. apply int64_sum_exact; auto.
    assert (2 ^ 50 < 2 ^ 63) by reflexivity. fold S. lia. }
  destruct (reductions_needed f HD HN ltac:(fold S; lia)) as [HF Hle]. fold S in Hle.
  pose proof (needed_sum_nonneg _ HF) as Hn0.
  assert (T0 : 0 < 2 ^ 1070) by reflexivity.
  destruct (summed_bound _ _ Hsum HF ltac:(lia)) as (V & -> & HV).
  assert (HV' : 0 <= V <= 5 * S * 2 ^ 1070) by nia.
  clear HV. rewrite ET.
  destruct (Z_lt_le_dec 0 S) as [Hpos|Hzero].
  - right. rewrite reduction_pct_of_pos by assumption.
    rewrite (of_int_exact S) by lia.
    rewrite (of_int_exact 100) by (split; [lia|reflexivity]).
    pose proof one_pos as H1.
    assert (E16 : one = 16 * 2 ^ 1070) by reflexivity.
    assert (Hh : huge = 2 ^ 1028 * 2 ^ 1070) by reflexivity.
    assert (Hb : 2 ^ 10 < 2 ^ 1028) by reflexivity.
    assert (HSo : 0 < S * one) by nia.
    simpl fdiv. rewrite Z.sgn_pos by assumption. rewrite Z.abs_eq by lia.
    destruct (round_pos_le (1 * V * one) (S * one) (5 * 2 ^ 1070)) as (D & ED & HDb & _).
    + nia.
    + assumption.
    + apply representable_scaled; [split; [lia|reflexivity]|lia].
    + rewrite Hh. nia.
    + rewrite E16 in *. remember (2 ^ 1070) as T. nia.
    + rewrite ED. simpl fmul.
      destruct (round_pos_le (D * (100 * one)) one (125 * 2 ^ 1072)) as (p & Ep & Hp & _).
      * nia.
      * assumption.
      * apply representable_scaled; [split; [lia|reflexivity]|lia].
      * assert (E72 : 2 ^ 1072 = 4 * 2 ^ 1070) by reflexivity. rewrite Hh, E72. nia.
      * assert (E72 : 2 ^ 1072 = 4 * 2 ^ 1070) by reflexivity. rewrite E72.
        remember (2 ^ 1070) as T. nia.
      * exists p. rewrite Ep. split; [reflexivity|].
        assert (E72 : one = 4 * 2 ^ 1072) by reflexivity. lia.
  - left. apply reduction_pct_of_nonpos. lia.
Qed.

(** C10 (as amended). In a derived table a record with a non-negative
    count has 0 <= predicted_reduction <= accidentCount and
    predicted_remaining >= 0; and for every filtered table of records
    with non-negative counts (total below 2^50) reductionPct lies in
    [0, 31.25], inside [0, 100], in whatever order the column is added
    up. *)
Theorem reduction_bounds (df : list raw_row) (rows : list row) :
  preprocess_and_analyze df = Ok rows ->
  (forall r, In r rows -> 0 <= accident_count r < 2 ^ 63 ->
     exists c p q,
       of_int (accident_count r) = Fin c /\
       predicted_reduction r = Fin p /\ predicted_remaining r = Fin q /\
       0 <= p <= c /\ p <= accident_count r * one /\ 0 <= q) /\
  (forall selected_sido selected_types,
     let filtered_df := filtered rows selected_sido selected_types in
     Forall (fun r => 0 <= accident_count r) filtered_df ->
     exact_sum (List.map accident_count filtered_df) < 2 ^ 50 ->
     within_percent (reduction_pct filtered_df) 125 4 /\
     within_percent (reduction_pct filtered_df) 100 1 /\
     forall s, summed (List.map predicted_reduction filtered_df) s ->
               within_percent (reduction_pct_of s (total_accidents filtered_df)) 125 4).
Proof.
  intros Hpre. pose proof (preprocess_derived df rows Hpre) as HF.
  split.
  - intros r Hin Hn.
    rewrite List.Forall_forall in HF. destruct (HF r Hin) as (_ & Hr & Hp & Hq).
    destruct (small_rate_spec _ (rates_small (accident_type r))) as (R & ER & R0 & RU).
    pose proof one_pos.
    destruct (share_bounds (accident_count r) R Hn R0 ltac:(lia))
      as (c & p & q & Ec & Ep & Eq & Hpb & Hpn & Hqb).
    exists c, p, q. rewrite Hq, Hp, Hr, ER.
    repeat split; auto; lia.
  - intros s ts fdf HN HS.
    pose proof (filtered_derived rows s ts HF) as HD. fold fdf in HD.
    assert (H4 : within_percent (reduction_pct fdf) 125 4).
    { apply reduction_pct_bound; auto. apply float64_sum_summed. }
    split; [exact H4|]. split.
    + destruct H4 as [E|(p & E & Hp0 & Hp)]; [left; exact E|right].
      exists p. pose proof one_pos. repeat split; auto; lia.
    + intros s' Hs'. apply reduction_pct_bound; auto.
Qed.

Lemma reduction_bounds_witness :
  within_percent (reduction_pct (filtered scenario_rows all_sido [])) 125 4.
Proof.
  refine (proj1 (proj2 (reduction_bounds scenario_raw scenario_rows scenario_preprocess)
                   all_sido [] _ _)).
  - repeat constructor; simpl; lia.
  - reflexivity.
Defined.

(** C10, the claim as stated fails: two school-zone records, 2 and 7
    accidents, give a percentage above 30. *)
Lemma reduction_pct_counterexample :
  preprocess_and_analyze school_raw = Ok school_rows /\
  exists p, reduction_pct (filtered school_rows all_sido []) = Ok (NFloat (Fin p)) /\
            30 * one < p.
Proof.
  split; [exact school_preprocess|].
  eexists. split.
  - vm_compute. reflexivity.
  - vm_compute. reflexivity.
Qed.

(** ** Top 10 *)

Lemma insert_by_count_perm x l : Permutation (insert_by_count x l) (x :: l).
Proof.
  induction l as [|h t IH]; simpl; [reflexivity|].
  destruct (rs_count x <=? rs_count h); [reflexivity|].
  rewrite IH. apply perm_swap.
Qed.

Lemma stable_sort_perm l : Permutation (stable_sort l) l.
Proof.
  induction l as [|x l IH]; simpl; [reflexivity|].
  rewrite insert_by_count_perm. apply perm_skip, IH.
Qed.

Lemma insert_by_count_sorted x l :
  Sorted le_count l -> Sorted le_count (insert_by_count x l).
Proof.
  induction 1 as [|h t Hs IH Hh]; simpl.
  - repeat constructor.
  - destruct (Z.leb_spec (rs_count x) (rs_count h)) as [Hle|Hgt].
    + constructor; [constructor; assumption|]. constructor. exact Hle.
    + constructor; [exact IH|].
      destruct t as [|h' t']; simpl.
      * constructor. unfold le_count. lia.
      * destruct (Z.leb_spec (rs_count x) (rs_count h')).
        -- constructor. unfold le_count. lia.
        -- constructor. inversion Hh. assumption.
Qed.

Lemma stable_sort_sorted l : Sorted le_count (stable_sort l).
Proof.
  induction l as [|x l IH]; simpl; [constructor|].
  apply insert_by_count_sorted, IH.
Qed.

Lemma reverse_tie_sort_perm l : Permutation (reverse_tie_sort l) l.
Proof.
  unfold reverse_tie_sort. rewrite stable_sort_perm. symmetry. apply Permutation_rev.
Qed.

Lemma reverse_tie_sort_sorted l : Sorted le_count (reverse_tie_sort l).
Proof. apply stable_sort_sorted. Qed.

Lemma le_count_trans : Relations_1.Transitive le_count.
Proof. intros a b c. unfold le_count. lia. Qed.

Lemma sorted_strongly l : Sorted le_count l -> StronglySorted le_count l.
Proof. apply Sorted_StronglySorted, le_count_trans. Qed.

Lemma strongly_sorted_app_inv (l1 l2 : list region_sum) :
  StronglySorted le_count (l1 ++ l2) ->
  StronglySorted le_count l2 /\
  (forall x y, In x l1 -> In y l2 -> rs_count x <= rs_count y).
Proof.
  induction l1 as [|a l1 IH]; simpl; intros H.
  - split; [assumption|]. intros x y [].
  - inversion H as [|? ? Hs Hall]; subst. destruct (IH Hs) as [H2 Hxy].
    split; [assumption|]. intros x y [<-|Hx] Hy.
    + rewrite List.Forall_forall in Hall. apply Hall, in_or_app. right. assumption.
    + apply Hxy; assumption.
Qed.

(** Strictly ascending lists with the same elements are the same list. *)
Lemma strictly_sorted_unique (l1 l2 : list region_sum) :
  StronglySorted lt_count l1 -> StronglySorted lt_count l2 ->
  Permutation l1 l2 -> l1 = l2.
Proof.
  revert l2. induction l1 as [|a l1 IH]; intros l2 H1 H2 HP.
  - apply Permutation_nil in HP. congruence.
  - destruct l2 as [|b l2]; [symmetry in HP; apply Permutation_nil in HP; discriminate|].
    inversion H1 as [|? ? Hs1 Ha]; subst. inversion H2 as [|? ? Hs2 Hb]; subst.
    rewrite List.Forall_forall in Ha, Hb.
    assert (a = b).
    { assert (In a (b :: l2)) as [E|Hin] by (eapply Permutation_in; [exact HP|left; reflexivity]);
        [congruence|].
      assert (In b (a :: l1)) as [E|Hin'] by (eapply Permutation_in; [symmetry; exact HP|left; reflexivity]);
        [congruence|].
      specialize (Ha _ Hin'). specialize (Hb _ Hin). unfold lt_count in *. lia. }
    subst b. f_equal. apply IH; auto. eapply Permutation_cons_inv, HP.
Qed.

Lemma sorted_nodup_strict l :
  StronglySorted le_count l -> NoDup (List.map rs_count l) -> StronglySorted lt_count l.
Proof.
  induction 1 as [|a l Hs IH Ha]; intros Hn; [constructor|].
  simpl in Hn. inversion Hn as [|? ? Hnot Hn']; subst.
  constructor; [auto|].
  rewrite List.Forall_forall in *. intros x Hx. specialize (Ha x Hx).
  unfold le_count, lt_count in *.
  assert (rs_count a <> rs_count x); [|lia].
  intros E. apply Hnot. rewrite E. apply in_map. assumption.
Qed.

Lemma nodup_perm_counts (l1 l2 : list region_sum) :
  Permutation l1 l2 -> NoDup (List.map rs_count l2) -> NoDup (List.map rs_count l1).
Proof.
  intros HP Hn. eapply Permutation_NoDup; [|exact Hn].
  apply Permutation_map. symmetry. assumption.
Qed.

Lemma tail_length {A : Type} n (l : list A) :
  List.length (tail n l) = Nat.min n (List.length l).
Proof. unfold tail. rewrite length_skipn. lia. Qed.

Section TopRegions.

(** [frame.sort_values('사고건수', ascending=True)] with the default
    algorithm: the rows in ascending order of the count, nothing more. *)
Variable sort_values : list region_sum -> list region_sum.
Hypothesis sort_values_perm : forall l, Permutation (sort_values l) l.
Hypothesis sort_values_sorted : forall l, Sorted le_count (sort_values l).

(** The kernel that adds up a float64 column of a group. *)
Variable group_sum : list f64 -> f64.

(** C8 (as amended). The top-10 aggregation sorts the per-region sums
    ascending and keeps the last ten: these are ten regions (all of them,
    below ten) of highest count, in ascending order, every region left out
    having at most the count of every region kept. When the counts are
    pairwise distinct the result is the same for every sorting algorithm;
    for twelve regions it then has exactly ten rows. How equal counts are
    ordered is left to the algorithm. *)
Theorem top_regions_highest (filtered_df : list row) :
  let grouped := groupby_region group_sum filtered_df in
  let top := top_regions sort_values group_sum filtered_df in
  top = tail 10 (sort_values grouped) /\
  List.length top = Nat.min 10 (List.length grouped) /\
  StronglySorted le_count top /\
  (exists rest,
     Permutation (rest ++ top) grouped /\
     forall x y, In x rest -> In y top -> rs_count x <= rs_count y) /\
  (NoDup (List.map rs_count grouped) ->
     top = tail 10 (stable_sort grouped) /\
     StronglySorted lt_count top /\
     (List.length grouped = 12%nat -> List.length top = 10%nat)).
Proof.
  intros grouped top.
  assert (Etop : top = tail 10 (sort_values grouped)) by reflexivity.
  assert (Hlen : List.length top = Nat.min 10 (List.length grouped)).
  { rewrite Etop, tail_length. f_equal.
    apply Permutation_length, sort_values_perm. }
  pose proof (sorted_strongly _ (sort_values_sorted grouped)) as Hss.
  assert (Hsplit : sort_values grouped =
                   firstn (List.length (sort_values grouped) - 10) (sort_values grouped) ++ top).
  { rewrite Etop. unfold tail. symmetry. apply firstn_skipn. }
  rewrite Hsplit in Hss. apply strongly_sorted_app_inv in Hss as [Htop Hrest].
  split; [exact Etop|]. split; [exact Hlen|]. split; [exact Htop|]. split.
  - eexists. split; [|exact Hrest]. rewrite <- Hsplit. apply sort_values_perm.
  - intros Hnd.
    assert (Hsame : sort_values grouped = stable_sort grouped).
    { apply strictly_sorted_unique.
      - apply sorted_nodup_strict; [apply sorted_strongly, sort_values_sorted|].
        eapply nodup_perm_counts; [apply sort_values_perm|exact Hnd].
      - apply sorted_nodup_strict; [apply sorted_strongly, stable_sort_sorted|].
        eapply nodup_perm_counts; [apply stable_sort_perm|exact Hnd].
      - rewrite sort_values_perm, stable_sort_perm. reflexivity. }
    split; [rewrite Etop, Hsame; reflexivity|]. split.
    + apply sorted_nodup_strict; [exact Htop|].
      assert (HP : Permutation (sort_values grouped) grouped) by apply sort_values_perm.
      pose proof (nodup_perm_counts _ _ HP Hnd) as Hnd'.
      rewrite Hsplit, List.map_app in Hnd'. apply NoDup_app_remove_l in Hnd'. exact Hnd'.
    + intros H12. rewrite Hlen, H12. reflexivity.
Qed.

End TopRegions.

Lemma top_regions_highest_witness :
  List.map rs_region (top_regions stable_sort float64_sum twelve_rows) =
    List.map rs_region (tail 10 (stable_sort (groupby_region float64_sum twelve_rows))) /\
  List.length (top_regions stable_sort float64_sum twelve_rows) = 10%nat.
Proof.
  destruct (top_regions_highest stable_sort stable_sort_perm stable_sort_sorted
              float64_sum twelve_rows) as (_ & _ & _ & _ & H).
  destruct H as (E & _ & L).
  - vm_compute. repeat constructor; intros H; repeat (destruct H as [H|H]; [discriminate H|]); destruct H.
  - split; [rewrite E; reflexivity|]. apply L. vm_compute. reflexivity.
Defined.

(** The twelve-region table: the ten highest counts, ascending. *)
Example top_regions_twelve :
  preprocess_and_analyze twelve_raw = Ok twelve_rows /\
  List.map (fun g => (rs_region g, rs_count g))
    (top_regions stable_sort float64_sum twelve_rows) =
  [ (u "B구", 3); (u "I구", 4); (u "A구", 5); (u "L구", 6); (u "F구", 7);
    (u "K구", 8); (u "C구", 9); (u "J구", 10); (u "H구", 11); (u "E구", 12) ].
Proof. split; vm_compute; reflexivity. Qed.

(** C8, the claim as stated fails: two regions with the same count, the
    later name in the earlier row. A stable sort, as the claim assumes,
    leaves them in the order of the names, which is the order groupby
    gives the frame, and not in the order of the rows. *)
Lemma top_regions_tie_counterexample :
  preprocess_and_analyze tie_raw = Ok tie_rows /\
  List.map region_clean tie_rows = [u "B시 "; u "A시 "] /\
  List.map rs_region (top_regions stable_sort float64_sum tie_rows) = [u "A시 "; u "B시 "] /\
  List.map rs_region (top_regions_row_order float64_sum tie_rows) = [u "B시 "; u "A시 "] /\
  top_regions stable_sort float64_sum tie_rows <> top_regions_row_order float64_sum tie_rows.
Proof.
  split; [vm_compute; reflexivity|]. split; [vm_compute; reflexivity|].
  split; [vm_compute; reflexivity|]. split; [vm_compute; reflexivity|].
  intros H. apply (f_equal (List.map rs_region)) in H. vm_compute in H. discriminate H.
Qed.

(** An algorithm that is not stable is as good a sort for the script, and
    orders the tied regions the other way round. *)
Lemma top_regions_ties_open :
  (forall l, Permutation (reverse_tie_sort l) l) /\
  (forall l, Sorted le_count (reverse_tie_sort l)) /\
  List.map rs_region (top_regions reverse_tie_sort float64_sum tie_rows) =
    [u "B시 "; u "A시 "].
Proof.
  split; [exact reverse_tie_sort_perm|]. split; [exact reverse_tie_sort_sorted|].
  vm_compute. reflexivity.
Qed.

(** ** The sidebar filter *)

(** C1 (as amended). With no accident type selected the type filter is
    skipped: the result is the table as the province selection leaves it,
    the whole table for the sentinel; only a non-empty selection narrows
    it. *)
Theorem filter_empty_types (df : list row) (selected_sido : str) :
  filtered df selected_sido [] = filter_sido df selected_sido /\
  filtered df all_sido [] = df /\
  (forall t ts,
     filtered df selected_sido (t :: ts) =
       List.filter (fun r => List.existsb (str_eqb (accident_type r)) (t :: ts))
         (filter_sido df selected_sido)).
Proof.
  split; [reflexivity|]. split; [|reflexivity].
  unfold filtered, filter_types, filter_sido.
  rewrite str_eqb_true by reflexivity. reflexivity.
Qed.

(** C1, the claim as stated fails: the two-record table, filtered with no
    type selected, keeps both records, for the sentinel and for the
    province. *)
Lemma filter_empty_types_counterexample :
  filtered scenario_rows all_sido [] = scenario_rows /\
  filtered scenario_rows (u "A시") [] = scenario_rows /\
  List.length (filtered scenario_rows all_sido []) = 2%nat.
Proof.
  split; [|split]; reflexivity.
Qed.

(** ** The strategy table *)

(** C3. The strategy and the rate of a record are those of the four-entry
    table for the four categories, matched as exact strings, and the
    general safety check with rate 0.10 for every other string; the rate is
    one of 0.30, 0.25, 0.20, 0.10. *)
Theorem strategy_lookup (category : str) :
  apply_strategy category = strategy_table category /\
  In (rate (apply_strategy category))
     [of_decimal 30 100; of_decimal 25 100; of_decimal 20 100; of_decimal 10 100] /\
  apply_strategy (u "스쿨존어린이") =
    {| strategy := u "스쿨존 과속단속/시인성 강화"; rate := of_decimal 30 100 |} /\
  apply_strategy (u "보행어린이") =
    {| strategy := u "보행로 펜스 및 안전교육"; rate := of_decimal 25 100 |} /\
  apply_strategy (u "보행노인") =
    {| strategy := u "노인보호구역 및 횡단보도 개선"; rate := of_decimal 20 100 |} /\
  apply_strategy (u "자전거") =
    {| strategy := u "자전거 전용도로 및 교차로 개선"; rate := of_decimal 25 100 |} /\
  apply_strategy (u "기타") =
    {| strategy := u "일반 안전 점검"; rate := of_decimal 10 100 |} /\
  of_decimal 30 100 = Fin (5404319552844595 * 2 ^ 1020) /\
  of_decimal 25 100 = Fin (2 ^ 1072) /\
  of_decimal 20 100 = Fin (3602879701896397 * 2 ^ 1020) /\
  of_decimal 10 100 = Fin (3602879701896397 * 2 ^ 1019) /\
  (forall df rows r,
     preprocess_and_analyze df = Ok rows -> In r rows ->
     proposed_strategy r = strategy (strategy_table (accident_type r)) /\
     reduction_rate r = rate (strategy_table (accident_type r))).
Proof.
  split; [apply apply_strategy_table|]. split.
  - rewrite apply_strategy_table. unfold strategy_table.
    repeat match goal with |- context [if ?b then _ else _] => destruct b end;
      cbn [rate];
      [ left | right; left | right; right; left | right; left
      | right; right; right; left ]; reflexivity.
  - repeat (split; [rewrite apply_strategy_table; vm_compute; reflexivity|]).
    repeat (split; [vm_compute; reflexivity|]).
    intros df rows r Hpre Hin.
    pose proof (preprocess_derived df rows Hpre) as HF.
    rewrite List.Forall_forall in HF. destruct (HF r Hin) as (Hs & Hr & _).
    rewrite <- apply_strategy_table. auto.
Qed.

Lemma strategy_lookup_witness :
  let r := metric_columns (List.hd large_raw scenario_raw) (u "A시 ", u "A시") in
  proposed_strategy r = strategy (strategy_table (accident_type r)) /\
  reduction_rate r = rate (strategy_table (accident_type r)).
Proof.
  intros r.
  apply (proj2 (proj2 (proj2 (proj2 (proj2 (proj2 (proj2 (proj2 (proj2 (proj2 (proj2
           (strategy_lookup [])))))))))))  scenario_raw scenario_rows r).
  - exact scenario_preprocess.
  - left. reflexivity.
Defined.

(** ** Loading *)

(** C7. load_data reads the file as cp949, then as euc-kr, then as utf-8,
    and returns the first read that succeeds; nothing is read again after
    the third attempt. When all three fail the script does not go on to
    render: a missing file ends it with the message of st.error and
    st.stop, another failure with the exception of the third read. *)
Theorem load_data_fallback (read_csv : encoding -> result (list raw_row)) :
  (forall df, read_csv cp949 = Ok df -> load_data read_csv = ([cp949], Ok df)) /\
  (forall e df,
     read_csv cp949 = Raise e -> read_csv euc_kr = Ok df ->
     load_data read_csv = ([cp949; euc_kr], Ok df)) /\
  (forall e1 e2,
     read_csv cp949 = Raise e1 -> read_csv euc_kr = Raise e2 ->
     load_data read_csv = ([cp949; euc_kr; utf_8], read_csv utf_8)) /\
  (exists n, (1 <= n <= 3)%nat /\
             fst (load_data read_csv) = firstn n [cp949; euc_kr; utf_8]) /\
  ((forall enc, exists e, read_csv enc = Raise e) ->
     fst (load_data read_csv) = [cp949; euc_kr; utf_8] /\
     (start read_csv = Stopped missing_file_message \/
      exists e, start read_csv = Uncaught e /\ read_csv utf_8 = Raise e)) /\
  ((forall enc, read_csv enc = Raise FileNotFoundError) ->
     start read_csv = Stopped missing_file_message) /\
  (forall df, start read_csv = Loaded df <-> snd (load_data read_csv) = Ok df).
Proof.
  unfold start, load_data.
  repeat split.
  - intros df ->. reflexivity.
  - intros e df -> ->. reflexivity.
  - intros e1 e2 -> ->. reflexivity.
  - destruct (read_csv cp949); [exists 1%nat; simpl; split; [lia|reflexivity]|].
    destruct (read_csv euc_kr); [exists 2%nat; simpl; split; [lia|reflexivity]|].
    exists 3%nat; simpl; split; [lia|reflexivity].
  - destruct (H cp949) as [e1 ->]. destruct (H euc_kr) as [e2 ->]. reflexivity.
  - destruct (H cp949) as [e1 ->]. destruct (H euc_kr) as [e2 ->].
    destruct (H utf_8) as [e3 ->]. simpl.
    destruct e3; eauto.
  - intros H. rewrite !H. reflexivity.
  - destruct (read_csv cp949); simpl; [congruence|].
    destruct (read_csv euc_kr); simpl; [congruence|].
    destruct (read_csv utf_8) as [|[]]; simpl; congruence.
  - destruct (read_csv cp949); simpl; [congruence|].
    destruct (read_csv euc_kr); simpl; [congruence|].
    destruct (read_csv utf_8) as [|[]]; simpl; congruence.
Qed.

Lemma load_data_fallback_witness :
  start (fun _ => Raise FileNotFoundError) = Stopped missing_file_message /\
  load_data (fun enc => match enc with utf_8 => Ok scenario_raw | _ => Raise UnicodeDecodeError end)
    = ([cp949; euc_kr; utf_8], Ok scenario_raw).
Proof.
  split.
  - apply (proj1 (proj2 (proj2 (proj2 (proj2 (proj2
             (load_data_fallback (fun _ => Raise FileNotFoundError)))))))).
    intros enc. reflexivity.
  - apply (proj1 (proj2 (proj2
             (load_data_fallback
                (fun enc => match enc with
                            | utf_8 => Ok scenario_raw
                            | _ => Raise UnicodeDecodeError
                            end)))) UnicodeDecodeError UnicodeDecodeError);
      reflexivity.
Defined.

(** * Options, groups and shares *)

Import Views.

(** ** The order of str and [sorted(column.unique())] *)

Lemma str_ltb_irrefl a : str_ltb a a = false.
Proof.
  induction a as [|x a IH]; [reflexivity|].
  simpl. rewrite Z.ltb_irrefl, Z.eqb_refl, IH. reflexivity.
Qed.

Lemma str_ltb_trans a b c :
  str_ltb a b = true -> str_ltb b c = true -> str_ltb a c = true.
Proof.
  revert b c. induction a as [|x a IH]; intros [|y b] [|z c] H1 H2;
    simpl in *; try discriminate; try reflexivity.
  apply orb_true_iff in H1. apply orb_true_iff in H2. apply orb_true_iff.
  destruct H1 as [H1|H1]; destruct H2 as [H2|H2];
    rewrite ?andb_true_iff, ?Z.ltb_lt, ?Z.eqb_eq in *.
  - left. lia.
  - left. lia.
  - left. lia.
  - right. split; [lia|]. eapply IH; [apply H1|apply H2].
Qed.

Lemma str_ltb_total a b :
  str_ltb a b = false -> a <> b -> str_ltb b a = true.
Proof.
  revert b. induction a as [|x a IH]; intros [|y b] H Hne; simpl in *;
    try discriminate; try reflexivity; try congruence.
  apply orb_false_iff in H as [H1 H2]. apply Z.ltb_ge in H1.
  apply orb_true_iff. rewrite andb_true_iff, Z.ltb_lt, Z.eqb_eq.
  destruct (Z.eq_dec x y) as [->|Hxy]; [|left; lia].
  right. split; [reflexivity|]. rewrite Z.eqb_refl in H2. simpl in H2.
  apply IH; congruence.
Qed.

Lemma insert_key_in k ks x : In x (insert_key k ks) <-> x = k \/ In x ks.
Proof.
  induction ks as [|h t IH]; simpl.
  - intuition.
  - destruct (str_eqb k h) eqn:E.
    + apply str_eqb_eq in E. subst. simpl. intuition.
    + destruct (str_ltb k h); simpl; rewrite ?IH; intuition.
Qed.

Lemma insert_key_hd k ks x :
  HdRel str_lt x ks -> str_lt x k -> HdRel str_lt x (insert_key k ks).
Proof.
  intros H Hk. destruct ks as [|h t]; simpl.
  - constructor. exact Hk.
  - inversion H; subst. destruct (str_eqb k h); [constructor; assumption|].
    destruct (str_ltb k h); constructor; assumption.
Qed.

Lemma insert_key_sorted k ks :
  Sorted str_lt ks -> Sorted str_lt (insert_key k ks).
Proof.
  induction ks as [|h t IH]; intros H; simpl.
  - repeat constructor.
  - destruct (str_eqb k h) eqn:E; [assumption|].
    destruct (str_ltb k h) eqn:L.
    + constructor; [assumption|]. constructor. exact L.
    + inversion H; subst. constructor; [auto|].
      apply insert_key_hd; [assumption|].
      apply str_ltb_total; [assumption|].
      intros ->. unfold str_eqb in E. rewrite bool_decide_eq_false in E. congruence.
Qed.

Lemma sorted_unique_acc l acc :
  Sorted str_lt acc ->
  Sorted str_lt (List.fold_left (fun ks k => insert_key k ks) l acc) /\
  forall x, In x (List.fold_left (fun ks k => insert_key k ks) l acc) <->
            In x l \/ In x acc.
Proof.
  revert acc. induction l as [|k l IH]; intros acc H; simpl.
  - split; [assumption|]. intuition.
  - destruct (IH (insert_key k acc) (insert_key_sorted k acc H)) as [HS HI].
    split; [assumption|]. intros x. rewrite HI, insert_key_in. intuition.
Qed.

Lemma sorted_unique_sorted l : StronglySorted str_lt (sorted_unique l).
Proof.
  apply Sorted_StronglySorted.
  - intros a b c. apply str_ltb_trans.
  - apply (sorted_unique_acc l []). constructor.
Qed.

Lemma sorted_unique_in l x : In x (sorted_unique l) <-> In x l.
Proof.
  unfold sorted_unique.
  destruct (sorted_unique_acc l [] ltac:(constructor)) as [_ H].
  rewrite H. simpl. intuition.
Qed.

Lemma strictly_sorted_nodup l : StronglySorted str_lt l -> NoDup l.
Proof.
  induction 1 as [|a l HS IH HF]; constructor; [|assumption].
  intros Hin. rewrite List.Forall_forall in HF. specialize (HF a Hin).
  unfold str_lt in HF. rewrite str_ltb_irrefl in HF. discriminate.
Qed.

Lemma sorted_unique_nodup l : NoDup (sorted_unique l).
Proof. apply strictly_sorted_nodup, sorted_unique_sorted. Qed.

(** A strictly ascending list is determined by its elements. *)
Lemma strictly_sorted_ext l1 l2 :
  StronglySorted str_lt l1 -> StronglySorted str_lt l2 ->
  (forall x, In x l1 <-> In x l2) -> l1 = l2.
Proof.
  intros H1. revert l2. induction H1 as [|a l1 HS IH HF]; intros l2 H2 Hin.
  - destruct l2 as [|b l2]; [reflexivity|]. exfalso. apply (Hin b). left. reflexivity.
  - destruct H2 as [|b l2 HS2 HF2].
    + exfalso. apply (Hin a). left. reflexivity.
    + rewrite List.Forall_forall in HF, HF2.
      assert (a = b) as ->.
      { destruct (proj1 (Hin a) (or_introl eq_refl)) as [E|Ha]; [auto|].
        destruct (proj2 (Hin b) (or_introl eq_refl)) as [E|Hb]; [auto|].
        specialize (HF _ Hb). specialize (HF2 _ Ha). unfold str_lt in *.
        pose proof (str_ltb_trans _ _ _ HF HF2) as C.
        rewrite str_ltb_irrefl in C. discriminate. }
      f_equal. apply IH; [assumption|]. intros x. split; intros Hx.
      * destruct (proj1 (Hin x) (or_intror Hx)) as [<-|Hx']; [|assumption].
        specialize (HF _ Hx). unfold str_lt in HF. rewrite str_ltb_irrefl in HF. discriminate.
      * destruct (proj2 (Hin x) (or_intror Hx)) as [<-|Hx']; [|assumption].
        specialize (HF2 _ Hx). unfold str_lt in HF2. rewrite str_ltb_irrefl in HF2. discriminate.
Qed.

(** X1. The province select box offers the sentinel and then every
    province of the table once, in strictly ascending order of code points;
    the type multiselect offers the accident types of the table it is given
    in the same way; and the options depend only on which values occur, not
    on the order or the number of the rows. *)
Theorem sidebar_options (df : list row) :
  sido_options df = all_sido :: sido_list df /\
  StronglySorted str_lt (sido_list df) /\ NoDup (sido_list df) /\
  (forall s, In s (sido_list df) <-> exists r, In r df /\ sido r = s) /\
  StronglySorted str_lt (type_list df) /\ NoDup (type_list df) /\
  (forall t, In t (type_list df) <-> exists r, In r df /\ accident_type r = t) /\
  (forall df',
     (forall r, In r df -> exists r', In r' df' /\ sido r' = sido r /\
                                       accident_type r' = accident_type r) ->
     (forall r', In r' df' -> exists r, In r df /\ sido r = sido r' /\
                                        accident_type r = accident_type r') ->
     sido_list df' = sido_list df /\ type_list df' = type_list df).
Proof.
  assert (Hin : forall (f : row -> str) d x,
             In x (sorted_unique (List.map f d)) <-> exists r, In r d /\ f r = x).
  { intros f d x. rewrite sorted_unique_in, List.in_map_iff. firstorder. }
  split; [reflexivity|].
  split; [apply sorted_unique_sorted|]. split; [apply sorted_unique_nodup|].
  split; [apply Hin|].
  split; [apply sorted_unique_sorted|]. split; [apply sorted_unique_nodup|].
  split; [apply Hin|].
  intros df' H1 H2. split; apply strictly_sorted_ext;
    try apply sorted_unique_sorted; intros x; unfold sido_list, type_list;
    rewrite !Hin; split; intros (r & Hr & <-).
  - destruct (H2 r Hr) as (r0 & ? & ? & ?). eauto.
  - destruct (H1 r Hr) as (r0 & ? & ? & ?). eauto.
  - destruct (H2 r Hr) as (r0 & ? & ? & ?). eauto.
  - destruct (H1 r Hr) as (r0 & ? & ? & ?). eauto.
Qed.

(** ** The two filters as one *)

Lemma filter_all {A : Type} (f : A -> bool) l :
  (forall x, In x l -> f x = true) -> List.filter f l = l.
Proof.
  induction l as [|x l IH]; intros H; simpl; [reflexivity|].
  rewrite (H x) by (left; reflexivity). f_equal. apply IH. intros y Hy. apply H. right. exact Hy.
Qed.

Lemma filter_twice {A : Type} (f g : A -> bool) l :
  List.filter f (List.filter g l) = List.filter (fun x => g x && f x) l.
Proof.
  induction l as [|x l IH]; simpl; [reflexivity|].
  destruct (g x); simpl; [destruct (f x)|]; rewrite IH; reflexivity.
Qed.

Lemma filter_sublist {A : Type} (f : A -> bool) l : sublist (List.filter f l) l.
Proof.
  induction l as [|x l IH]; simpl; [constructor|].
  destruct (f x); [apply sublist_skip|apply sublist_cons]; exact IH.
Qed.

Lemma filtered_kept df s ts : filtered df s ts = List.filter (kept s ts) df.
Proof.
  unfold filtered, filter_types, filter_sido, kept.
  destruct (str_eqb s all_sido); destruct ts as [|t ts]; simpl.
  - symmetry. apply filter_all. reflexivity.
  - reflexivity.
  - apply List.filter_ext. intros r. rewrite andb_true_r. reflexivity.
  - rewrite filter_twice. reflexivity.
Qed.

Lemma existsb_str_eqb k ts : List.existsb (str_eqb k) ts = true <-> In k ts.
Proof.
  rewrite List.existsb_exists. split.
  - intros (x & Hx & E). apply str_eqb_eq in E. subst. exact Hx.
  - intros H. exists k. split; [exact H|apply str_eqb_true; reflexivity].
Qed.

Lemma kept_spec s ts r :
  kept s ts r = true <->
  (s = all_sido \/ sido r = s) /\ (ts = [] \/ In (accident_type r) ts).
Proof.
  unfold kept. rewrite andb_true_iff, orb_true_iff, !str_eqb_eq.
  destruct ts as [|t ts].
  - intuition.
  - rewrite existsb_str_eqb. intuition discriminate.
Qed.

(** X2. The rows of the filtered table are the rows of the table that
    pass both selections (the sentinel and an empty type selection pass
    every row); they keep their order; filtering a second time with the same
    selections changes nothing, and two filterings give the same table in
    either order. *)
Theorem filtered_rows (df : list row) (selected_sido : str) (selected_types : list str) :
  (forall r, In r (filtered df selected_sido selected_types) <->
             In r df /\
             (selected_sido = all_sido \/ sido r = selected_sido) /\
             (selected_types = [] \/ In (accident_type r) selected_types)) /\
  sublist (filtered df selected_sido selected_types) df /\
  filtered (filtered df selected_sido selected_types) selected_sido selected_types =
    filtered df selected_sido selected_types /\
  (forall s ts,
     filtered (filtered df selected_sido selected_types) s ts =
     filtered (filtered df s ts) selected_sido selected_types).
Proof.
  rewrite !filtered_kept. split; [|split; [|split]].
  - intros r. rewrite List.filter_In, kept_spec. reflexivity.
  - apply filter_sublist.
  - rewrite filter_twice. apply List.filter_ext.
    intros r. destruct (kept selected_sido selected_types r); reflexivity.
  - intros s ts. rewrite !filtered_kept, !filter_twice. apply List.filter_ext.
    intros r. apply andb_comm.
Qed.

(** X3. The multiselect starts with every type of the province's rows
    selected, and that selection keeps all of them: until the user removes a
    type the table is the one the province selection gives. *)
Theorem default_types_keep_all (df : list row) (selected_sido : str) :
  filtered df selected_sido (type_list (filter_sido df selected_sido)) =
    filter_sido df selected_sido.
Proof.
  unfold filtered. set (fd := filter_sido df selected_sido).
  unfold filter_types. destruct (type_list fd) as [|t ts] eqn:E; [reflexivity|].
  apply filter_all. intros r Hr. rewrite <- E. apply existsb_str_eqb.
  unfold type_list. apply sorted_unique_in, List.in_map. exact Hr.
Qed.

Lemma filter_nil_iff {A : Type} (f : A -> bool) l :
  List.filter f l = [] <-> forall x, In x l -> f x = false.
Proof.
  induction l as [|x l IH]; simpl.
  - intuition.
  - destruct (f x) eqn:E.
    + split; [discriminate|]. intros H. specialize (H x (or_introl eq_refl)). congruence.
    + rewrite IH. split; [intros H y [<-|Hy]; auto|intros H y Hy; apply H; auto].
Qed.

(** X4. The province filter gives a table without rows only for an empty
    table or for a value, other than the sentinel, that is no province of
    the table: every option of the select box shows rows. A province spelt
    like the sentinel cannot be told from it: selecting it shows the whole
    table. *)
Theorem sido_filter_empty (df : list row) (selected_sido : str) :
  (filter_sido df selected_sido = [] <->
   df = [] \/ (selected_sido <> all_sido /\ ~ In selected_sido (sido_list df))) /\
  (forall r, In r df -> In selected_sido (sido_options df) ->
             exists r', In r' (filter_sido df selected_sido)) /\
  (In all_sido (sido_list df) -> filter_sido df all_sido = df).
Proof.
  assert (Hl : forall s, In s (sido_list df) <-> exists r, In r df /\ sido r = s).
  { intros s. unfold sido_list. rewrite sorted_unique_in, List.in_map_iff. firstorder. }
  assert (H1 : filter_sido df selected_sido = [] <->
               df = [] \/ (selected_sido <> all_sido /\ ~ In selected_sido (sido_list df))).
  { unfold filter_sido. destruct (str_eqb selected_sido all_sido) eqn:E.
    - apply str_eqb_eq in E. intuition.
    - assert (selected_sido <> all_sido).
      { intros ->. rewrite str_eqb_true in E by reflexivity. discriminate. }
      rewrite filter_nil_iff, Hl. split.
      + intros H0. right. split; [assumption|]. intros (r & Hr & Es).
        specialize (H0 r Hr). rewrite str_eqb_true in H0 by assumption. discriminate.
      + intros [->|[_ Hn]] r Hr; [destruct Hr|].
        apply str_eqb_false. intros Es. apply Hn. eauto. }
  split; [exact H1|]. split.
  - intros r Hr Hopt.
    destruct (filter_sido df selected_sido) as [|r' l] eqn:E; [|exists r'; left; reflexivity].
    exfalso. destruct (proj1 H1 eq_refl) as [->|[Hne Hn]]; [destruct Hr|].
    destruct Hopt as [Hs|Hs]; [congruence|contradiction].
  - intros _. unfold filter_sido. rewrite str_eqb_true by reflexivity. reflexivity.
Qed.

Lemma exact_sum_sublist l1 l2 :
  sublist l1 l2 -> Forall (fun n => 0 <= n) l2 ->
  0 <= exact_sum l1 <= exact_sum l2.
Proof.
  induction 1 as [|x l1 l2 HS IH|x l1 l2 HS IH]; intros HF; simpl.
  - lia.
  - inversion HF; subst. specialize (IH ltac:(assumption)). lia.
  - inversion HF; subst. specialize (IH ltac:(assumption)). lia.
Qed.

Lemma sublist_in {A : Type} (l1 l2 : list A) x :
  sublist l1 l2 -> In x l1 -> In x l2.
Proof.
  induction 1 as [|y l1 l2 HS IH|y l1 l2 HS IH]; simpl; intuition.
Qed.

Lemma sublist_map {A B : Type} (f : A -> B) l1 l2 :
  sublist l1 l2 -> sublist (List.map f l1) (List.map f l2).
Proof. induction 1; simpl; constructor; assumption. Qed.

(** X5. When no count is negative and the counts of the table add up to
    less than 2^63, narrowing the selection never raises the total: the
    total of every filtered table is between 0 and the total of the whole
    table, and it is the exact sum of its counts. *)
Theorem filtered_total_le (df : list row) (selected_sido : str) (selected_types : list str) :
  Forall (fun r => 0 <= accident_count r) df ->
  exact_sum (List.map accident_count df) < 2 ^ 63 ->
  let filtered_df := filtered df selected_sido selected_types in
  total_accidents filtered_df = exact_sum (List.map accident_count filtered_df) /\
  0 <= total_accidents filtered_df <= total_accidents df.
Proof.
  intros HF HS filtered_df.
  assert (HF' : Forall (fun n => 0 <= n) (List.map accident_count df))
    by (apply List.Forall_map; exact HF).
  assert (Hsub : sublist (List.map accident_count filtered_df) (List.map accident_count df)).
  { apply sublist_map. unfold filtered_df. rewrite filtered_kept. apply filter_sublist. }
  pose proof (exact_sum_sublist _ _ Hsub HF') as Hle.
  assert (HFf : Forall (fun n => 0 <= n) (List.map accident_count filtered_df)).
  { rewrite List.Forall_forall in *. intros x Hx. apply HF'.
    eapply sublist_in; eauto. }
  unfold total_accidents.
  rewrite (int64_sum_exact (List.map accident_count filtered_df)) by (auto; lia).
  rewrite (int64_sum_exact (List.map accident_count df)) by auto.
  split; [reflexivity|lia].
Qed.

Lemma filtered_total_le_witness :
  0 <= total_accidents (filtered scenario_rows (u "A시") [u "자전거"]) <=
    total_accidents scenario_rows.
Proof.
  apply (filtered_total_le scenario_rows (u "A시") [u "자전거"]).
  - repeat constructor; simpl; lia.
  - reflexivity.
Defined.

(** ** What cleaning leaves *)

(** Every str is a part that does not end with a digit, and the decimal
    digits after it. *)
Lemma trailing_digits s :
  exists s0 ds, s = s0 ++ ds /\ forallb isdecimal ds = true /\
                ends_with_digit s0 = false.
Proof.
  induction s as [|c s IH] using rev_ind.
  - exists [], []. auto.
  - destruct (isdecimal c) eqn:Hc.
    + destruct IH as (s0 & ds & -> & Hd & He).
      exists s0, (ds ++ [c]). rewrite app_assoc. split; [reflexivity|].
      split; [|exact He]. rewrite forallb_app, Hd. simpl. rewrite Hc. reflexivity.
    + exists (s ++ [c]), []. rewrite app_nil_r, ends_with_digit_snoc. auto.
Qed.

Lemma ends_with_digit_newline_inv s :
  ends_with_digit_newline s = true ->
  exists s' c, s = s' ++ [c; newline] /\ isdecimal c = true.
Proof.
  unfold ends_with_digit_newline. intros H.
  destruct (rev s) as [|n [|c r]] eqn:E; try discriminate.
  apply andb_true_iff in H as [Hn Hc]. apply Z.eqb_eq in Hn. subst n.
  exists (rev r), c. split; [|exact Hc].
  rewrite <- (rev_involutive s), E. simpl. rewrite <- app_assoc. reflexivity.
Qed.

Lemma ends_with_digit_nil_app s0 ds :
  ends_with_digit s0 = false -> ends_with_digit (s0 ++ ds) = true -> ds <> [].
Proof. intros H0 H1 ->. rewrite app_nil_r in H1. congruence. Qed.

(** The str [re.sub] gives is the text without one run of decimal
    digits, which ends the text or stands before the newline that ends it. *)
Lemma re_sub_removes_one_run s :
  exists a ds b,
    s = a ++ ds ++ b /\ clean_region (PStr s) = PStr (a ++ b) /\
    forallb isdecimal ds = true /\ (b = [] \/ b = [newline]) /\
    ends_with_digit (a ++ b) = false /\
    (~ In newline s ->
       b = [] /\ clean_region (PStr (a ++ b)) = PStr (a ++ b)).
Proof.
  destruct (trailing_digits s) as (s0 & ds & -> & Hd & He).
  destruct ds as [|d ds].
  + rewrite app_nil_r.
    destruct (ends_with_digit_newline s0) eqn:En.
    * destruct (ends_with_digit_newline_inv s0 En) as (s' & c & -> & Hc).
      destruct (trailing_digits (s' ++ [c])) as (a & ds' & E' & Hd' & Ha).
      assert (Hne : ds' <> []).
      { apply (ends_with_digit_nil_app a); [exact Ha|].
        rewrite <- E', ends_with_digit_snoc. exact Hc. }
      exists a, ds', [newline].
      assert (Es : s' ++ [c; newline] = a ++ ds' ++ [newline]).
      { change [c; newline] with ([c] ++ [newline]).
        rewrite app_assoc, E', <- app_assoc. reflexivity. }
      rewrite Es. split; [reflexivity|]. split.
      { simpl. f_equal. rewrite re_sub_strip by auto. reflexivity. }
      split; [exact Hd'|]. split; [right; reflexivity|].
      split; [apply ends_with_digit_snoc|].
      intros Hn. exfalso. apply Hn. rewrite !in_app_iff. right. right. left. reflexivity.
    * exists s0, [], []. rewrite !app_nil_r.
      assert (Ek : re_sub_digits_end s0 = s0) by (apply re_sub_keep; assumption).
      simpl. rewrite Ek. repeat split; auto.
  + exists s0, (d :: ds), []. rewrite !app_nil_r.
    assert (Es : re_sub_digits_end (s0 ++ d :: ds) = s0).
    { rewrite <- (app_nil_r (d :: ds)). rewrite re_sub_strip by (auto; discriminate).
      simpl. apply app_nil_r. }
    simpl clean_region. rewrite Es.
    split; [reflexivity|]. split; [reflexivity|]. split; [exact Hd|].
    split; [left; reflexivity|]. split; [exact He|].
    intros Hn. split; [reflexivity|]. f_equal. apply re_sub_keep; [exact He|].
    destruct (ends_with_digit_newline s0) eqn:En; [|reflexivity].
    exfalso. destruct (ends_with_digit_newline_inv s0 En) as (s' & c & -> & _).
    apply Hn. rewrite !in_app_iff. left. right. right. left. reflexivity.
Qed.

(** X6. Cleaning a region label takes out one run of decimal digits and
    nothing else: the characters before the run stay, in their order, and
    after the run there is nothing or the one newline that ends the label.
    The cleaned label never ends with a decimal digit. On a label without a
    newline the digits removed are its end and cleaning again changes
    nothing; with newlines a second cleaning can remove more. *)
Theorem clean_region_result :
  (forall s,
     exists a ds b,
       s = a ++ ds ++ b /\ clean_region (PStr s) = PStr (a ++ b) /\
       forallb isdecimal ds = true /\ (b = [] \/ b = [newline]) /\
       ends_with_digit (a ++ b) = false /\
       (~ In newline s ->
          b = [] /\ clean_region (PStr (a ++ b)) = PStr (a ++ b))) /\
  (exists s t,
     clean_region (PStr s) = PStr t /\ clean_region (PStr t) <> PStr t).
Proof.
  split.
  - exact re_sub_removes_one_run.
  - exists [65; 49; 50; newline; 51], [65; 49; 50; newline].
    split; [reflexivity|]. discriminate.
Qed.

(** ** The tokens of [str.split()] *)

Lemma split_from_tokens s tok :
  forallb (fun c => negb (isspace c)) tok = true ->
  Forall (fun t => t <> [] /\ forallb (fun c => negb (isspace c)) t = true)
    (split_from s tok) /\
  List.concat (split_from s tok) = tok ++ List.filter (fun c => negb (isspace c)) s.
Proof.
  revert tok. induction s as [|c s IH]; intros tok Ht; simpl.
  - destruct tok as [|x tok].
    + split; [constructor|reflexivity].
    + split; [repeat constructor; [discriminate|exact Ht]|].
      simpl. rewrite !app_nil_r. reflexivity.
  - destruct (isspace c) eqn:Hc; simpl.
    + destruct (IH [] eq_refl) as [HF HC]. destruct tok as [|x tok].
      * split; [exact HF|exact HC].
      * split; [constructor; [split; [discriminate|exact Ht]|exact HF]|].
        simpl. rewrite HC. reflexivity.
    + destruct (IH (tok ++ [c])) as [HF HC].
      * rewrite forallb_app, Ht. simpl. rewrite Hc. reflexivity.
      * split; [exact HF|]. rewrite HC, <- app_assoc. reflexivity.
Qed.

Lemma filter_nonspace_nil s :
  List.filter (fun c => negb (isspace c)) s = [] -> forallb isspace s = true.
Proof.
  induction s as [|c s IH]; simpl; [reflexivity|].
  destruct (isspace c); simpl; [exact IH|discriminate].
Qed.

Lemma split_facts (s : str) :
  Forall (fun t => t <> [] /\ forallb (fun c => negb (isspace c)) t = true) (split s) /\
  List.concat (split s) = List.filter (fun c => negb (isspace c)) s /\
  (split s = [] <-> forallb isspace s = true).
Proof.
  destruct (split_from_tokens s [] eq_refl) as [HF HC].
  split; [exact HF|]. split; [exact HC|]. split.
  - intros E. unfold split in E. rewrite E in HC. simpl in HC.
    apply filter_nonspace_nil. symmetry. exact HC.
  - apply split_all_space.
Qed.

(** X7. The tokens [str.split()] gives are the characters of the text
    that are not whitespace, in their order, cut into pieces: no token is
    empty or holds whitespace, and there is no token exactly when the text
    is blank. *)
Theorem split_tokens (s : str) :
  Forall (fun t => t <> [] /\ forallb (fun c => negb (isspace c)) t = true) (split s) /\
  List.concat (split s) = List.filter (fun c => negb (isspace c)) s /\
  (split s = [] <-> forallb isspace s = true).
Proof.
  destruct (split_from_tokens s [] eq_refl) as [Htokens Hchars].
  split; [exact Htokens|]. split; [exact Hchars|]. split.
  - intros Hnone. apply filter_nonspace_nil.
    unfold split in Hnone. rewrite Hnone in Hchars. symmetry. exact Hchars.
  - intros Hblank. apply split_all_space. exact Hblank.
Qed.

(** ** Which frames [preprocess_and_analyze] accepts *)

Lemma region_columns_ok r :
  region_ok r = true ->
  exists s tok, raw_region r = PStr s /\
                region_columns r = Ok (re_sub_digits_end s, tok) /\
                item0 (split (re_sub_digits_end s)) = Ok tok.
Proof.
  unfold region_ok, region_columns. destruct (raw_region r) as [s| |]; try discriminate.
  intros H. apply negb_true_iff in H. simpl.
  destruct (split (re_sub_digits_end s)) as [|tok more] eqn:E.
  - apply (proj1 (proj2 (proj2 (split_facts _)))) in E. congruence.
  - exists s, tok. simpl. repeat split. rewrite E. reflexivity.
Qed.

Lemma region_columns_error r :
  region_ok r = false -> region_columns r = Raise (region_error r).
Proof.
  unfold region_ok, region_columns, region_error.
  destruct (raw_region r) as [s| |]; try reflexivity.
  intros H. apply negb_false_iff in H. simpl.
  rewrite split_all_space by assumption. reflexivity.
Qed.

Lemma map_result_all {A B : Type} (f : A -> result B) l :
  Forall (fun x => exists y, f x = Ok y) l ->
  exists ys, map_result f l = Ok ys.
Proof.
  induction 1 as [|x l [y Hy] HF [ys IH]]; simpl.
  - eauto.
  - rewrite Hy, IH. simpl. eauto.
Qed.

Lemma map_result_first_error {A B : Type} (f : A -> result B) good bad rest e :
  Forall (fun x => exists y, f x = Ok y) good -> f bad = Raise e ->
  map_result f (good ++ bad :: rest) = Raise e.
Proof.
  induction 1 as [|x l [y Hy] HF IH]; intros Hb; simpl.
  - rewrite Hb. reflexivity.
  - rewrite Hy, (IH Hb). reflexivity.
Qed.

Lemma preprocess_columns df rcs :
  Forall2 (fun x y => region_columns x = Ok y) df rcs ->
  let rows := List.map (fun p => metric_columns (fst p) (snd p)) (List.combine df rcs) in
  List.map region rows = List.map raw_region df /\
  List.map accident_type rows = List.map raw_type df /\
  List.map accident_count rows = List.map raw_count df /\
  List.map (fun r => PStr (region_clean r)) rows =
    List.map (fun r => clean_region (raw_region r)) df /\
  List.map (fun r => Ok (sido r)) rows =
    List.map (fun r => first_token (clean_region (raw_region r))) df.
Proof.
  induction 1 as [|raw rc df rcs Hx HF IH]; simpl.
  - repeat split.
  - destruct IH as (I1 & I2 & I3 & I4 & I5).
    rewrite I1, I2, I3, I4, I5. repeat split. 
    + f_equal. unfold region_columns in Hx.
      destruct (clean_region (raw_region raw)) as [s| |]; simpl in Hx; try discriminate.
      destruct (item0 (split s)); simpl in Hx; [|discriminate].
      injection Hx as <-. reflexivity.
    + f_equal. unfold region_columns in Hx.
      destruct (clean_region (raw_region raw)) as [s| |]; simpl in Hx; try discriminate.
      simpl. destruct (item0 (split s)); simpl in Hx; [|discriminate].
      injection Hx as <-. reflexivity.
Qed.

(** X8. On a file with at least one row preprocess_and_analyze returns a
    frame exactly when every region label is a str that still holds a token
    once cleaned. The frame then
    has the rows of the input in their order, with the region, the type and
    the count as they were read; region_clean is the cleaned label and the
    province its first token, row by row. *)
Theorem preprocess_succeeds (first : raw_row) (others : list raw_row) :
  let df := first :: others in
  ((exists rows, preprocess_and_analyze df = Ok rows) <->
   Forall (fun r => region_ok r = true) df) /\
  (forall rows,
     preprocess_and_analyze df = Ok rows ->
     List.length rows = List.length df /\
     List.map region rows = List.map raw_region df /\
     List.map accident_type rows = List.map raw_type df /\
     List.map accident_count rows = List.map raw_count df /\
     List.map (fun r => PStr (region_clean r)) rows =
       List.map (fun r => clean_region (raw_region r)) df /\
     List.map (fun r => Ok (sido r)) rows =
       List.map (fun r => first_token (clean_region (raw_region r))) df).
Proof.
  intros df. clearbody df.
  split.
  - split.
    + intros [rows H]. unfold preprocess_and_analyze in H.
      destruct (map_result region_columns df) as [rcs|e] eqn:E; simpl in H; [|discriminate].
      apply map_result_ok in E. clear H.
      induction E as [|raw rc df' rcs' Hx HF IH]; constructor; [|exact IH].
      destruct (region_ok raw) eqn:Hok; [reflexivity|].
      rewrite region_columns_error in Hx by assumption. discriminate.
    + intros HF. unfold preprocess_and_analyze.
      destruct (map_result_all region_columns df) as [rcs ->]; [|simpl; eauto].
      eapply Forall_impl; [|exact HF]. intros r Hr.
      destruct (region_columns_ok r Hr) as (s & tok & _ & E & _). eauto.
  - intros rows H. unfold preprocess_and_analyze in H.
    destruct (map_result region_columns df) as [rcs|e] eqn:E; simpl in H; [|discriminate].
    injection H as <-. apply map_result_ok in E.
    split; [|apply preprocess_columns; exact E].
    rewrite length_map, length_combine, <- (Forall2_length E). lia.
Qed.

(** X9. When a region label cannot be used, preprocess_and_analyze
    returns no frame: the first such row, in the order of the file, ends it
    with AttributeError when the label is no str (a field left empty is
    read as NaN) and with IndexError when the cleaned label is empty or
    blank. *)
Theorem preprocess_first_error (good : list raw_row) (bad : raw_row) (rest : list raw_row) :
  Forall (fun r => region_ok r = true) good -> region_ok bad = false ->
  preprocess_and_analyze (good ++ bad :: rest) = Raise (region_error bad) /\
  (region_error bad = IndexError <-> exists s, raw_region bad = PStr s) /\
  (region_error bad = AttributeError <-> forall s, raw_region bad <> PStr s).
Proof.
  intros HF Hb. split.
  - unfold preprocess_and_analyze.
    rewrite (map_result_first_error region_columns good bad rest (region_error bad)).
    + reflexivity.
    + eapply Forall_impl; [|exact HF]. intros r Hr.
      destruct (region_columns_ok r Hr) as (s & tok & _ & E & _). eauto.
    + apply region_columns_error. exact Hb.
  - unfold region_error. destruct (raw_region bad) as [s0| |].
    + split; split; intros H; eauto; try discriminate.
      exfalso. apply (H s0). reflexivity.
    + split; split; intros H; try discriminate; try reflexivity.
      destruct H; discriminate.
    + split; split; intros H; try discriminate; try reflexivity.
      destruct H; discriminate.
Qed.

Lemma preprocess_first_error_witness :
  preprocess_and_analyze
    (scenario_raw ++
     {| raw_region := PFloat NaN; raw_type := u "자전거"; raw_count := 3 |} :: scenario_raw)
    = Raise AttributeError /\
  preprocess_and_analyze
    (scenario_raw ++
     {| raw_region := PStr (u " 2024"); raw_type := u "자전거"; raw_count := 3 |} :: [])
    = Raise IndexError.
Proof.
  split.
  - apply (preprocess_first_error scenario_raw
             {| raw_region := PFloat NaN; raw_type := u "자전거"; raw_count := 3 |}
             scenario_raw).
    + repeat constructor.
    + reflexivity.
  - apply (preprocess_first_error scenario_raw
             {| raw_region := PStr (u " 2024"); raw_type := u "자전거"; raw_count := 3 |} []).
    + repeat constructor.
    + reflexivity.
Defined.

(** X10. In a frame preprocess_and_analyze returned, no cleaned region
    ends with a decimal digit, and every province is a token: it is not
    empty, it holds no whitespace, and it is no longer than the cleaned
    region it was taken from. *)
Theorem region_columns_shape (df : list raw_row) (rows : list row) (r : row) :
  preprocess_and_analyze df = Ok rows -> In r rows ->
  ends_with_digit (region_clean r) = false /\
  sido r <> [] /\
  forallb (fun c => negb (isspace c)) (sido r) = true /\
  In (sido r) (split (region_clean r)) /\
  (List.length (sido r) <= List.length (region_clean r))%nat.
Proof.
  intros Hpre Hin.
  pose proof (preprocess_rows df rows Hpre) as HR.
  rewrite List.Forall_forall in HR.
  destruct (HR r Hin) as (raw & rc & Hraw & Hrc & ->). simpl.
  destruct (region_ok raw) eqn:Hok;
    [|rewrite region_columns_error in Hrc by assumption; discriminate].
  destruct (region_columns_ok raw Hok) as (s & tok & Es & E & Et).
  rewrite E in Hrc. injection Hrc as <-. simpl.
  destruct (re_sub_removes_one_run s) as (a & ds & b & _ & Ec & _ & _ & He & _).
  simpl in Ec. injection Ec as Ec. rewrite Ec.
  split; [exact He|]. rewrite <- Ec.
  set (t := re_sub_digits_end s) in *.
  destruct (split_facts t) as (HF & HC & _).
  assert (Htok : In tok (split t)).
  { destruct (split t) as [|x l]; simpl in Et; [discriminate|].
    injection Et as ->. left. reflexivity. }
  rewrite List.Forall_forall in HF. destruct (HF tok Htok) as [Hne Hns].
  repeat split; auto.
  assert (Hlen : (List.length tok <= List.length (List.concat (split t)))%nat).
  { clear -Htok. induction (split t) as [|x l IH]; [destruct Htok|].
    simpl. rewrite length_app. destruct Htok as [->|H]; [lia|]. specialize (IH H). lia. }
  rewrite HC in Hlen. pose proof (List.filter_length_le (fun c => negb (isspace c)) t). lia.
Qed.

Lemma region_columns_shape_witness :
  ends_with_digit (region_clean school_row) = false /\
  sido school_row <> [] /\
  forallb (fun c => negb (isspace c)) (sido school_row) = true /\
  In (sido school_row) (split (region_clean school_row)) /\
  (List.length (sido school_row) <= List.length (region_clean school_row))%nat.
Proof.
  apply (region_columns_shape scenario_raw scenario_rows school_row).
  - exact scenario_preprocess.
  - left. reflexivity.
Defined.

(** ** int64 sums, whatever the size of the counts *)

Lemma wrap64_range z : - 2 ^ 63 <= wrap64 z < 2 ^ 63.
Proof.
  unfold wrap64.
  assert (H : 0 <= (z + 2 ^ 63) mod 2 ^ 64 < 2 ^ 64) by (apply Z.mod_pos_bound; reflexivity).
  assert (E : 2 ^ 64 = 2 * 2 ^ 63) by reflexivity. lia.
Qed.

Lemma wrap64_add_l a b : wrap64 (wrap64 a + b) = wrap64 (a + b).
Proof.
  unfold wrap64. f_equal.
  replace ((a + 2 ^ 63) mod 2 ^ 64 - 2 ^ 63 + b + 2 ^ 63)
    with ((a + 2 ^ 63) mod 2 ^ 64 + b) by lia.
  rewrite Zplus_mod_idemp_l. f_equal. lia.
Qed.

Lemma wrap64_add_r a b : wrap64 (a + wrap64 b) = wrap64 (a + b).
Proof. rewrite Z.add_comm, wrap64_add_l. f_equal. lia. Qed.

Lemma int64_sum_from l a :
  List.fold_left (fun acc n => wrap64 (acc + n)) l (wrap64 a) = wrap64 (a + exact_sum l).
Proof.
  revert a. induction l as [|x l IH]; intros a; simpl.
  - f_equal. lia.
  - rewrite (IH (wrap64 a + x)), <- Z.add_assoc, wrap64_add_l. reflexivity.
Qed.

Lemma int64_sum_wrap l : int64_sum l = wrap64 (exact_sum l).
Proof. exact (int64_sum_from l 0). Qed.

Lemma exact_sum_perm l l' : Permutation l l' -> exact_sum l = exact_sum l'.
Proof. induction 1; simpl; lia. Qed.

Lemma exact_sum_wrapped {A : Type} (f : A -> Z) l :
  wrap64 (exact_sum (List.map (fun k => wrap64 (f k)) l)) =
  wrap64 (exact_sum (List.map f l)).
Proof.
  induction l as [|k l IH]; simpl; [reflexivity|].
  rewrite wrap64_add_l. rewrite <- wrap64_add_r, IH, wrap64_add_r. reflexivity.
Qed.

(** X11. The total of the count column is the sum of the counts reduced
    to the range of int64: it lies in that range, differs from the sum of
    the counts by a multiple of 2^64, is that sum when the sum fits, and
    does not depend on the order of the rows. *)
Theorem total_accidents_wraps (filtered_df : list row) :
  let counts := exact_sum (List.map accident_count filtered_df) in
  - 2 ^ 63 <= total_accidents filtered_df < 2 ^ 63 /\
  (exists k, total_accidents filtered_df = counts + k * 2 ^ 64) /\
  (- 2 ^ 63 <= counts < 2 ^ 63 <-> total_accidents filtered_df = counts) /\
  (forall df', Permutation filtered_df df' ->
               total_accidents df' = total_accidents filtered_df).
Proof.
  intros counts. unfold total_accidents. rewrite int64_sum_wrap. fold counts.
  split; [apply wrap64_range|]. split; [|split].
  - exists (- ((counts + 2 ^ 63) / 2 ^ 64)). unfold wrap64.
    rewrite Z.mod_eq by discriminate. lia.
  - split; [apply wrap64_small|]. intros E. rewrite <- E. apply wrap64_range.
  - intros df' HP. rewrite int64_sum_wrap. f_equal. unfold counts.
    symmetry. apply exact_sum_perm, Permutation_map, HP.
Qed.

(** ** Groups *)

Lemma exact_sum_zero {A : Type} (l : list A) : exact_sum (List.map (fun _ => 0) l) = 0.
Proof. induction l; simpl; lia. Qed.

Lemma exact_sum_add {A : Type} (f g : A -> Z) l :
  exact_sum (List.map (fun k => f k + g k) l) =
  exact_sum (List.map f l) + exact_sum (List.map g l).
Proof. induction l; simpl; lia. Qed.

Lemma exact_sum_single k0 v keys :
  NoDup keys -> In k0 keys ->
  exact_sum (List.map (fun k => if str_eqb k0 k then v else 0) keys) = v.
Proof.
  induction 1 as [|k keys Hk HN IH]; intros Hin; [destruct Hin|].
  simpl. destruct Hin as [->|Hin].
  - rewrite str_eqb_true by reflexivity.
    rewrite (List.map_ext_in _ (fun _ => 0)), exact_sum_zero; [lia|].
    intros k Hk'. rewrite str_eqb_false; [reflexivity|]. intros ->. contradiction.
  - rewrite str_eqb_false by (intros ->; contradiction). rewrite IH by assumption. lia.
Qed.

(** The sums of the groups add up to the sum of the column. *)
Lemma group_sums_add_up {A : Type} (key : A -> str) (val : A -> Z) keys l :
  NoDup keys -> (forall x, In x l -> In (key x) keys) ->
  exact_sum (List.map
    (fun k => exact_sum (List.map val (List.filter (fun x => str_eqb (key x) k) l))) keys)
  = exact_sum (List.map val l).
Proof.
  intros HN. induction l as [|x l IH]; intros Hin.
  - simpl. apply exact_sum_zero.
  - transitivity (exact_sum (List.map
      (fun k => (if str_eqb (key x) k then val x else 0) +
                exact_sum (List.map val (List.filter (fun y => str_eqb (key y) k) l)))
      keys)).
    + f_equal. apply List.map_ext. intros k. simpl.
      destruct (str_eqb (key x) k); simpl; lia.
    + rewrite exact_sum_add, exact_sum_single, IH.
      * reflexivity.
      * intros y Hy. apply Hin. right. exact Hy.
      * exact HN.
      * apply Hin. left. reflexivity.
Qed.

Lemma grouped_counts_total {A : Type} (key : A -> str) (val : A -> Z) l :
  int64_sum (List.map
    (fun k => int64_sum (List.map val (List.filter (fun x => str_eqb (key x) k) l)))
    (sorted_unique (List.map key l)))
  = int64_sum (List.map val l).
Proof.
  rewrite (int64_sum_wrap (List.map val l)), int64_sum_wrap.
  rewrite (List.map_ext _ (fun k => wrap64 (exact_sum
             (List.map val (List.filter (fun x => str_eqb (key x) k) l)))))
    by (intros k; apply int64_sum_wrap).
  rewrite (exact_sum_wrapped
             (fun k => exact_sum (List.map val (List.filter (fun x => str_eqb (key x) k) l)))).
  f_equal. apply group_sums_add_up.
  - apply sorted_unique_nodup.
  - intros x Hx. apply sorted_unique_in, List.in_map, Hx.
Qed.

(** X12. The slices of the pie and the bars of the regions add up to the
    total of the KPI: the counts of the groups by accident type, and the
    counts of the groups by cleaned region, each sum to the total count of
    the filtered table, also when sums leave the range of int64. Each
    group stands for at least one row, the types of the pie are the types
    of the table, in ascending order. *)
Theorem group_counts_add_up (group_sum : list f64 -> f64) (filtered_df : list row) :
  int64_sum (List.map tc_count (type_counts filtered_df)) = total_accidents filtered_df /\
  int64_sum (List.map rs_count (groupby_region group_sum filtered_df))
    = total_accidents filtered_df /\
  List.map tc_type (type_counts filtered_df) = type_list filtered_df /\
  List.map ts_type (type_red group_sum filtered_df) = type_list filtered_df /\
  (forall g, In g (type_counts filtered_df) ->
             exists r, In r filtered_df /\ accident_type r = tc_type g) /\
  (forall g, In g (groupby_region group_sum filtered_df) ->
             exists r, In r filtered_df /\ region_clean r = rs_region g).
Proof.
  unfold type_counts, type_red, groupby_region, total_accidents, type_list.
  rewrite !List.map_map. simpl.
  split; [apply (grouped_counts_total accident_type accident_count)|].
  split; [apply (grouped_counts_total region_clean accident_count)|].
  split; [apply List.map_id|]. split; [apply List.map_id|]. split.
  - intros g Hg. apply List.in_map_iff in Hg as (k & <- & Hk). simpl.
    apply sorted_unique_in, List.in_map_iff in Hk as (r & <- & Hr). eauto.
  - intros g Hg. apply List.in_map_iff in Hg as (k & <- & Hk). simpl.
    apply sorted_unique_in, List.in_map_iff in Hk as (r & <- & Hr). eauto.
Qed.

(** ** The rows of the top 10 *)

Lemma groupby_region_keys group_sum df :
  List.map rs_region (groupby_region group_sum df) =
  sorted_unique (List.map region_clean df).
Proof. unfold groupby_region. rewrite List.map_map. apply List.map_id. Qed.

Lemma nodup_skipn {A : Type} n (l : list A) : NoDup l -> NoDup (skipn n l).
Proof.
  intros H. rewrite <- (firstn_skipn n l) in H. apply NoDup_app_remove_l in H. exact H.
Qed.

Lemma in_skipn {A : Type} n (l : list A) x : In x (skipn n l) -> In x l.
Proof. intros H. rewrite <- (firstn_skipn n l). apply in_or_app. right. exact H. Qed.

Section TopRegionRows.

(** Of [sort_values] only that it reorders the rows. *)
Variable sort_values : list region_sum -> list region_sum.
Hypothesis sort_values_perm : forall l, Permutation (sort_values l) l.

Variable group_sum : list f64 -> f64.

(** X13. Every bar of the top 10 is a different cleaned region of the
    filtered table, and carries the sums of the rows of that region; with
    ten regions or fewer every region of the table has its bar, and a table
    without rows has none. *)
Theorem top_regions_rows (filtered_df : list row) :
  let top := top_regions sort_values group_sum filtered_df in
  NoDup (List.map rs_region top) /\
  (forall g, In g top ->
     g = sum_group group_sum filtered_df (rs_region g) /\
     exists r, In r filtered_df /\ region_clean r = rs_region g) /\
  ((List.length (sorted_unique (List.map region_clean filtered_df)) <= 10)%nat ->
     forall r, In r filtered_df -> exists g, In g top /\ rs_region g = region_clean r) /\
  (filtered_df = [] -> top = []).
Proof.
  intros top. set (grouped := groupby_region group_sum filtered_df).
  assert (Hp : Permutation (sort_values grouped) grouped) by apply sort_values_perm.
  assert (Hg : forall g, In g grouped ->
             g = sum_group group_sum filtered_df (rs_region g) /\
             exists r, In r filtered_df /\ region_clean r = rs_region g).
  { intros g Hg. apply List.in_map_iff in Hg as (k & <- & Hk). simpl.
    split; [reflexivity|].
    apply sorted_unique_in, List.in_map_iff in Hk as (r & <- & Hr). eauto. }
  split; [|split; [|split]].
  - unfold top, top_regions, tail. fold grouped.
    rewrite <- List.skipn_map. apply nodup_skipn.
    apply (Permutation_NoDup (l := List.map rs_region grouped)).
    + symmetry. apply Permutation_map, Hp.
    + unfold grouped. rewrite groupby_region_keys. apply sorted_unique_nodup.
  - intros g Hin. apply Hg. apply (Permutation_in _ Hp).
    eapply in_skipn. exact Hin.
  - intros Hlen r Hr.
    assert (Hin : In (sum_group group_sum filtered_df (region_clean r)) grouped).
    { apply List.in_map, sorted_unique_in, List.in_map, Hr. }
    exists (sum_group group_sum filtered_df (region_clean r)). split; [|reflexivity].
    unfold top, top_regions, tail. fold grouped.
    assert (El : List.length (sort_values grouped) =
                 List.length (sorted_unique (List.map region_clean filtered_df))).
    { rewrite (Permutation_length Hp). unfold grouped, groupby_region.
      apply length_map. }
    replace (List.length (sort_values grouped) - 10)%nat with 0%nat by lia.
    simpl. apply (Permutation_in _ (Permutation_sym Hp)). exact Hin.
  - intros ->. unfold top, top_regions, tail. simpl.
    assert (E : sort_values [] = []) by (apply Permutation_nil, Permutation_sym, sort_values_perm).
    change (groupby_region group_sum []) with (@nil region_sum). rewrite E. reflexivity.
Qed.

End TopRegionRows.

Lemma top_regions_rows_witness :
  NoDup (List.map rs_region (top_regions stable_sort float64_sum tie_rows)).
Proof.
  apply (top_regions_rows stable_sort stable_sort_perm float64_sum tie_rows).
Defined.

(** ** The rate 0.25 *)

Lemma quarter_units : of_decimal 25 100 = Fin (2 ^ 1072).
Proof. vm_compute. reflexivity. Qed.

Lemma one_quarters : one = 4 * 2 ^ 1072.
Proof. reflexivity. Qed.

Lemma quarters_lt_huge n : 0 <= n < 2 ^ 53 -> n * 2 ^ 1072 < huge.
Proof.
  intros Hn. assert (E : huge = 2 ^ 1026 * 2 ^ 1072) by reflexivity.
  assert (2 ^ 53 < 2 ^ 1026) by reflexivity.
  assert (0 < 2 ^ 1072) by reflexivity. rewrite E. nia.
Qed.

Lemma round_quarters n : 0 <= n < 2 ^ 53 -> round (n * 2 ^ 1072) 1 = Fin (n * 2 ^ 1072).
Proof.
  intros Hn. rewrite <- (Z.mul_1_r (n * 2 ^ 1072)) at 1.
  assert (0 < 2 ^ 1072) by reflexivity.
  apply round_exact;
    [lia|apply representable_scaled; lia|apply quarters_lt_huge; exact Hn|nia].
Qed.

Lemma quarter_of_count n :
  0 <= n < 2 ^ 51 ->
  fmul (of_int n) (Fin (2 ^ 1072)) = Fin (n * 2 ^ 1072) /\
  fsub (of_int n) (Fin (n * 2 ^ 1072)) = Fin (3 * n * 2 ^ 1072).
Proof.
  intros Hn. assert (P51 : 2 ^ 53 = 4 * 2 ^ 51) by reflexivity.
  rewrite of_int_exact by lia. split.
  - simpl. replace (n * one * 2 ^ 1072) with (n * 2 ^ 1072 * one) by lia.
    assert (0 < 2 ^ 1072) by reflexivity. pose proof one_pos.
    apply round_exact;
      [lia|apply representable_scaled; lia|apply quarters_lt_huge; lia|nia].
  - unfold fsub. simpl. rewrite one_quarters.
    replace (n * (4 * 2 ^ 1072) + - (n * 2 ^ 1072)) with (3 * n * 2 ^ 1072) by lia.
    apply round_quarters. lia.
Qed.

(** X14. For the two categories with the rate 0.25 the prediction is
    exact: a record with a count n, 0 <= n < 2^51, has predicted_reduction
    n/4 and predicted_remaining 3n/4 as the numbers themselves, and the two
    add up to the count. *)
Theorem quarter_rate_exact (r : row) :
  derived r -> reduction_rate r = of_decimal 25 100 ->
  0 <= accident_count r < 2 ^ 51 ->
  predicted_reduction r = Fin (accident_count r * 2 ^ 1072) /\
  predicted_remaining r = Fin (3 * accident_count r * 2 ^ 1072) /\
  4 * (accident_count r * 2 ^ 1072) = accident_count r * one /\
  fadd (predicted_reduction r) (predicted_remaining r) = of_int (accident_count r) /\
  rate (apply_strategy (u "보행어린이")) = of_decimal 25 100 /\
  rate (apply_strategy (u "자전거")) = of_decimal 25 100.
Proof.
  intros (_ & _ & Hp & Hq) Hr Hn.
  destruct (quarter_of_count _ Hn) as [Ep Eq].
  assert (P51 : 2 ^ 53 = 4 * 2 ^ 51) by reflexivity.
  rewrite Hr, quarter_units in Hp. rewrite Ep in Hp. rewrite Hp, Eq in Hq.
  rewrite Hp, Hq. split; [reflexivity|]. split; [reflexivity|].
  split; [rewrite one_quarters; lia|]. split; [|split; vm_compute; reflexivity].
  rewrite of_int_exact by lia. simpl. rewrite one_quarters.
  replace (accident_count r * 2 ^ 1072 + 3 * accident_count r * 2 ^ 1072)
    with (4 * accident_count r * 2 ^ 1072) by lia.
  rewrite round_quarters by lia. f_equal. lia.
Qed.

Lemma quarter_rate_exact_witness :
  predicted_reduction bicycle_row = Fin (accident_count bicycle_row * 2 ^ 1072) /\
  predicted_remaining bicycle_row = Fin (3 * accident_count bicycle_row * 2 ^ 1072).
Proof.
  destruct (quarter_rate_exact bicycle_row) as (Hp & Hq & _).
  - apply metric_columns_derived.
  - vm_compute. reflexivity.
  - change (0 <= 5 < 2 ^ 51). split; [lia|reflexivity].
  - exact (conj Hp Hq).
Defined.

Lemma exact_sum_member l n :
  Forall (fun n => 0 <= n) l -> In n l -> n <= exact_sum l.
Proof.
  induction 1 as [|x l Hx HF IH]; intros Hin; [destruct Hin|].
  pose proof (exact_sum_nonneg _ HF). simpl.
  destruct Hin as [->|Hin]; [lia|]. specialize (IH Hin). lia.
Qed.

(** Quarters add up exactly, in whatever order. *)
Lemma summed_quarters l s :
  summed l s ->
  forall ns, l = List.map (fun n => Fin (n * 2 ^ 1072)) ns ->
             Forall (fun n => 0 <= n) ns -> exact_sum ns < 2 ^ 53 ->
             s = Fin (exact_sum ns * 2 ^ 1072).
Proof.
  induction 1 as [|x|l1 l2 s1 s2 H1 IH1 H2 IH2|l l' s HP H IH]; intros ns E HF HS.
  - destruct ns; [reflexivity|discriminate].
  - destruct ns as [|n [|m ns]]; try discriminate.
    simpl in *. injection E as ->. f_equal. lia.
  - symmetry in E. apply List.map_eq_app in E as (n1 & n2 & -> & E1 & E2).
    apply List.Forall_app in HF as [HF1 HF2].
    pose proof (exact_sum_nonneg _ HF1). pose proof (exact_sum_nonneg _ HF2).
    assert (Es : exact_sum (n1 ++ n2) = exact_sum n1 + exact_sum n2).
    { clear. induction n1; simpl; lia. }
    rewrite Es in *.
    rewrite (IH1 n1) by (auto; lia). rewrite (IH2 n2) by (auto; lia).
    simpl. rewrite <- Z.mul_add_distr_r. apply round_quarters. lia.
  - subst l'. apply Permutation_map_inv in HP as (ns' & -> & HP').
    rewrite (exact_sum_perm _ _ HP').
    apply IH; [reflexivity| |rewrite <- (exact_sum_perm _ _ HP'); exact HS].
    rewrite List.Forall_forall in *. intros n Hn. apply HF.
    apply (Permutation_in _ (Permutation_sym HP')). exact Hn.
Qed.

(** X15. A filtered table that only holds records of the categories with
    the rate 0.25, with counts that are not negative and add up to a total
    between 1 and 2^51, has the reduction percentage 25.0 exactly, in
    whatever order the predicted reductions are added up. *)
Theorem quarter_rate_pct (filtered_df : list row) :
  Forall derived filtered_df ->
  Forall (fun r => reduction_rate r = of_decimal 25 100 /\ 0 <= accident_count r)
    filtered_df ->
  0 < exact_sum (List.map accident_count filtered_df) < 2 ^ 51 ->
  reduction_pct filtered_df = Ok (NFloat (of_int 25)) /\
  forall s, summed (List.map predicted_reduction filtered_df) s ->
            reduction_pct_of s (total_accidents filtered_df) = Ok (NFloat (of_int 25)).
Proof.
  intros HD HQ HS.
  set (S := exact_sum (List.map accident_count filtered_df)) in *.
  assert (P51 : 2 ^ 53 = 4 * 2 ^ 51) by reflexivity.
  assert (P63 : 2 ^ 63 = 4096 * 2 ^ 51) by reflexivity.
  assert (HN : Forall (fun n => 0 <= n) (List.map accident_count filtered_df)).
  { apply List.Forall_map. eapply Forall_impl; [|exact HQ]. simpl. tauto. }
  assert (ET : total_accidents filtered_df = S).
  { unfold total_accidents. apply int64_sum_exact; [exact HN|fold S; lia]. }
  assert (Hall : forall s, summed (List.map predicted_reduction filtered_df) s ->
            reduction_pct_of s (total_accidents filtered_df) = Ok (NFloat (of_int 25))).
  { intros s Hs.
    assert (Es : s = Fin (S * 2 ^ 1072)).
    { apply (summed_quarters _ _ Hs (List.map accident_count filtered_df)).
      - rewrite List.map_map. apply List.map_ext_in. intros r Hr.
        rewrite List.Forall_forall in HD, HQ, HN.
        destruct (HQ r Hr) as [Hrate Hr0].
        assert (Hc : 0 <= accident_count r < 2 ^ 51).
        { split; [exact Hr0|].
          assert (Hle : accident_count r <= S); [|lia].
          apply exact_sum_member; [apply List.Forall_forall; exact HN|].
          apply List.in_map. exact Hr. }
        destruct (HD r Hr) as (_ & _ & Hp & _).
        rewrite Hp, Hrate, quarter_units. apply (quarter_of_count _ Hc).
      - exact HN.
      - fold S. lia. }
    rewrite ET, Es, reduction_pct_of_pos by lia.
    rewrite (of_int_exact S) by lia.
    rewrite (of_int_exact 100) by (split; [lia|reflexivity]).
    rewrite (of_int_exact 25) by (split; [lia|reflexivity]).
    pose proof one_pos as H1. assert (HT : 0 < 2 ^ 1072) by reflexivity.
    assert (HSo : 0 < S * one) by nia.
    simpl fdiv. rewrite Z.sgn_pos by assumption. rewrite Z.abs_eq by lia.
    replace (1 * (S * 2 ^ 1072) * one) with (2 ^ 1072 * (S * one)) by lia.
    rewrite round_exact;
      [|lia
       |change (2 ^ 1072) with (1 * 2 ^ 1072);
        apply representable_scaled; [split; [lia|reflexivity]|lia]
       |reflexivity|lia].
    simpl fmul. replace (2 ^ 1072 * (100 * one)) with (25 * one * one)
      by (rewrite one_quarters at 1; lia).
    rewrite (round_exact (25 * one) one);
      [reflexivity
      |lia
      |unfold one; apply representable_scaled; [split; [lia|reflexivity]|lia]
      |rewrite huge_one; assert (25 < 2 ^ 1024) by reflexivity; nia
      |lia]. }
  split; [|exact Hall]. apply Hall. apply float64_sum_summed.
Qed.

Lemma quarter_rate_pct_witness :
  reduction_pct tie_rows = Ok (NFloat (of_int 25)).
Proof.
  refine (proj1 (quarter_rate_pct tie_rows _ _ _)).
  - repeat (constructor; [apply metric_columns_derived|]). constructor.
  - repeat (constructor; [split; [vm_compute; reflexivity|simpl; lia]|]). constructor.
  - split; reflexivity.
Defined.

(** ** The two shares of a count *)

Lemma round_between a b lo hi :
  0 < b -> 0 <= lo -> representable lo -> representable hi -> hi < huge ->
  lo * b <= a <= hi * b ->
  exists w, round a b = Fin w /\ lo <= w <= hi /\ representable w.
Proof.
  intros Hb Hlo Rlo Rhi Hh [Ha1 Ha2].
  assert (Ha : 0 <= a) by nia.
  exists (rne_pos a b).
  assert (lo <= rne_pos a b) by (apply rne_pos_ge; auto).
  assert (rne_pos a b <= hi) by (apply rne_pos_le; auto).
  split; [|split; [lia|apply rne_pos_representable; lia]].
  unfold round. rewrite rne_nonneg_eq by lia. apply mk_fin. lia.
Qed.

(** A float of at least 1.0 has a half that is a float. *)
Lemma representable_half c :
  representable c -> one <= c -> exists h, c = 2 * h /\ representable h.
Proof.
  intros (m & k & Hm & Hk & ->) Hc.
  destruct (Z.eq_dec k 0) as [->|Hk0].
  - exfalso. assert (2 ^ 53 < one) by reflexivity. change (2 ^ 0) with 1 in Hc. lia.
  - exists (m * 2 ^ (k - 1)). split; [|exists m, (k - 1); repeat split; lia].
    replace k with (k - 1 + 1) at 1 by lia.
    rewrite Z.pow_add_r by lia. change (2 ^ 1) with 2. lia.
Qed.

(** The rates of the dictionary and of its default: floats above 0 and at
    most 5/16. *)
Lemma rates_positive t :
  exists R, rate (apply_strategy t) = Fin R /\ 0 < R /\ 2 * R <= one /\ representable R.
Proof.
  assert (H : forall a, In a [30; 25; 20; 10] ->
            exists R, of_decimal a 100 = Fin R /\ 0 < R /\ 2 * R <= one /\ representable R).
  { intros a Ha. exists (rne_pos (a * one) 100).
    assert (Hr : representable (rne_pos (a * one) 100)).
    { apply rne_pos_representable; [|lia]. pose proof one_pos. simpl in Ha. nia. }
    simpl in Ha.
    destruct Ha as [<-|[<-|[<-|[<-|[]]]]];
      (split; [vm_compute; reflexivity|]; split; [vm_compute; reflexivity|];
       split; [vm_compute; discriminate|exact Hr]). }
  rewrite apply_strategy_table. unfold strategy_table.
  repeat match goal with |- context [if ?b then _ else _] => destruct b end;
    cbn [rate]; apply H; simpl; tauto.
Qed.

Lemma of_int_ge_one n :
  0 < n < 2 ^ 63 ->
  exists c, of_int n = Fin c /\ one <= c /\ representable c /\ c < huge.
Proof.
  intros Hn. pose proof one_pos.
  assert (Hh : 2 ^ 63 * one < huge) by (apply pow2_lt_huge; lia).
  destruct (round_between (n * one) 1 one (2 ^ 63 * one)) as (w & Ew & Hw & Hr);
    try lia; try nia.
  - change one with (2 ^ 0 * one). apply representable_pow2. lia.
  - apply representable_pow2. lia.
  - exists w. repeat split; auto; lia.
Qed.

(** X16. A record with at least one accident (count below 2^63) has a
    predicted reduction above 0, and at least as many accidents remain as
    are taken away: 0 < predicted_reduction <= predicted_remaining, and
    the remainder is at most the count as a float. *)
Theorem shares_ordered (r : row) :
  derived r -> 0 < accident_count r < 2 ^ 63 ->
  exists c p q,
    of_int (accident_count r) = Fin c /\
    predicted_reduction r = Fin p /\ predicted_remaining r = Fin q /\
    0 < p /\ p <= q /\ q <= c.
Proof.
  intros (_ & Hr & Hp & Hq) Hn.
  destruct (rates_positive (accident_type r)) as (R & ER & R0 & RU & RR).
  destruct (of_int_ge_one _ Hn) as (c & Ec & c1 & Rc & Hc).
  destruct (representable_half c Rc c1) as (h & Eh & Rh).
  pose proof one_pos as H1.
  rewrite Hr, ER, Ec in Hp. simpl in Hp.
  destruct (round_between (c * R) one R h) as (p & Ep & [p1 p2] & Rp);
    try lia; try nia; auto.
  rewrite Ep in Hp. rewrite Hp, Ec in Hq. unfold fsub in Hq. simpl in Hq.
  destruct (round_between (c + - p) 1 p c) as (q & Eq & [q1 q2] & Rq);
    try lia; auto.
  rewrite Eq in Hq.
  exists c, p, q. repeat split; auto; lia.
Qed.

Lemma shares_ordered_witness :
  exists c p q,
    of_int (accident_count school_row) = Fin c /\
    predicted_reduction school_row = Fin p /\ predicted_remaining school_row = Fin q /\
    0 < p /\ p <= q /\ q <= c.
Proof.
  apply (shares_ordered school_row).
  - apply metric_columns_derived.
  - split; reflexivity.
Defined.

(** ** Fonts *)

(** X17. init_korean_font always returns a family and always switches the
    Unicode minus off: on a system that is neither Windows nor Darwin (the
    names compared as they are spelt) a failure to load the Nanum font, of
    whatever kind, is not passed on but answered with DejaVu Sans for
    matplotlib and sans-serif for Plotly, and this is the only way to these
    two; when the font loads, matplotlib gets the name the file reports
    and Plotly gets NanumGothic. *)
Theorem font_fallback (system_name : str) (nanum_name : result str) :
  let f := init_korean_font system_name nanum_name in
  rc_unicode_minus f = false /\
  In (font_family f)
    [u "Malgun Gothic"; u "AppleGothic"; u "NanumGothic"; u "sans-serif"] /\
  (font_family f = u "sans-serif" <->
     system_name <> u "Windows" /\ system_name <> u "Darwin" /\
     exists e, nanum_name = Raise e) /\
  (font_family f = u "sans-serif" -> rc_family f = u "DejaVu Sans") /\
  (font_family f = u "NanumGothic" <->
     system_name <> u "Windows" /\ system_name <> u "Darwin" /\
     nanum_name = Ok (rc_family f)) /\
  (system_name = u "Windows" \/ system_name = u "Darwin" ->
     rc_family f = font_family f) /\
  update_layout_font (font_family f) = font_family f ++ u ", sans-serif".
Proof.
  intros f. unfold f, init_korean_font.
  assert (Hcase : (system_name = u "Windows") \/
                  (system_name <> u "Windows" /\ system_name = u "Darwin") \/
                  (system_name <> u "Windows" /\ system_name <> u "Darwin")).
  { destruct (decide (system_name = u "Windows")); [tauto|].
    destruct (decide (system_name = u "Darwin")); tauto. }
  destruct Hcase as [->|[[NW ->]|[NW ND]]].
  - rewrite str_eqb_true by reflexivity.
    cbn [fst snd rc_family rc_unicode_minus font_family].
    repeat split; try (simpl; tauto); try discriminate; try tauto;
      intros (H & _); congruence.
  - rewrite (str_eqb_false _ _ NW), str_eqb_true by reflexivity.
    cbn [fst snd rc_family rc_unicode_minus font_family].
    repeat split; try (simpl; tauto); try discriminate; try tauto;
      intros (_ & H & _); congruence.
  - rewrite (str_eqb_false _ _ NW), (str_eqb_false _ _ ND).
    destruct nanum_name as [name|e]; cbn [fst snd rc_family rc_unicode_minus font_family];
      repeat split; try (simpl; tauto); try discriminate; eauto;
      try (intros (_ & _ & H); first [discriminate|destruct H; discriminate]);
      try (intros [H|H]; contradiction).
Qed.

(** ** The order of the rows *)

Lemma filter_perm {A : Type} (f : A -> bool) l l' :
  Permutation l l' -> Permutation (List.filter f l) (List.filter f l').
Proof.
  induction 1 as [|x l l' HP IH|x y l|l1 l2 l3 H1 IH1 H2 IH2]; simpl.
  - constructor.
  - destruct (f x); [constructor|]; exact IH.
  - destruct (f x); destruct (f y); try reflexivity. apply perm_swap.
  - etransitivity; eassumption.
Qed.

Lemma sorted_unique_perm l l' :
  Permutation l l' -> sorted_unique l = sorted_unique l'.
Proof.
  intros HP. apply strictly_sorted_ext; try apply sorted_unique_sorted.
  intros x. rewrite !sorted_unique_in. split; apply Permutation_in; [|symmetry]; exact HP.
Qed.

Lemma group_count_perm (key : row -> str) df df' k :
  Permutation df df' ->
  int64_sum (List.map accident_count (List.filter (fun r => str_eqb (key r) k) df)) =
  int64_sum (List.map accident_count (List.filter (fun r => str_eqb (key r) k) df')).
Proof.
  intros HP. rewrite !int64_sum_wrap. f_equal.
  apply exact_sum_perm, Permutation_map, filter_perm, HP.
Qed.

(** X18. The regions and the types of the charts, their order and their
    counts do not depend on the order of the rows of the filtered table:
    two tables with the same rows in another order give the same groups by
    region and by type with the same counts. *)
Theorem group_counts_order_free (group_sum : list f64 -> f64) (df df' : list row) :
  Permutation df df' ->
  List.map (fun g => (rs_region g, rs_count g)) (groupby_region group_sum df) =
  List.map (fun g => (rs_region g, rs_count g)) (groupby_region group_sum df') /\
  type_counts df = type_counts df' /\
  type_list df = type_list df' /\ sido_list df = sido_list df'.
Proof.
  intros HP.
  assert (Hk : forall f : row -> str,
             sorted_unique (List.map f df) = sorted_unique (List.map f df')).
  { intros f. apply sorted_unique_perm, Permutation_map, HP. }
  split; [|split; [|split; apply Hk]].
  - unfold groupby_region. rewrite !List.map_map, Hk. apply List.map_ext.
    intros k. simpl. f_equal. apply (group_count_perm region_clean). exact HP.
  - unfold type_counts. rewrite Hk. apply List.map_ext.
    intros k. f_equal. apply (group_count_perm accident_type). exact HP.
Qed.

Lemma group_counts_order_free_witness :
  type_counts tie_rows = type_counts (rev tie_rows).
Proof.
  apply (group_counts_order_free float64_sum tie_rows (rev tie_rows)).
  apply Permutation_rev.
Defined.
